(** * NFL score predictor: feature engineering and score adjustment

    A shallow embedding of [src/scripts/main2.py] and the properties of
    its feature-engineering pipeline.

    Numeric model.  The script computes on pandas/numpy [float64] columns.
    Here a number is an exact rational ([Q]): arithmetic does not round
    and there are no infinities.  A cell of the play-by-play frame may be
    missing ([None] for NaN or null); from the merged historical frame on
    every numeric cell holds a number.  Results that state an arithmetic
    identity use [==] (equality of rationals); results about which rows
    or cells a value is taken from use [=].

    Tables.  A [DataFrame] is a list of rows in frame order.  A row of a
    frame with a fixed set of numeric columns reads those columns through
    a total function on column names; a Python [dict] and the labels a
    loop adds to a row are finite maps ([gmap]) keyed by name. *)

From Stdlib Require Import QArith Qabs Qround Lqa ZArith.
From stdpp Require Import gmap strings list sorting.

Open Scope Q_scope.

(** ** Numeric helpers *)

Definition qsum (l : list Q) : Q := foldr Qplus 0 l.

(** [Series.mean()] of a column without missing values. *)
Definition mean (l : list Q) : Q := qsum l / inject_Z (Z.of_nat (length l)).

(** ** Frame helpers *)

(** [Series.unique()]: distinct values in order of first appearance. *)
Fixpoint unique_from `{EqDecision A} (seen : list A) (l : list A) : list A :=
  match l with
  | [] => []
  | x :: l' =>
      if decide (x ∈ seen) then unique_from seen l'
      else x :: unique_from (x :: seen) l'
  end.

Definition unique `{EqDecision A} (l : list A) : list A := unique_from [] l.

(** Stable sort by a boolean "less or equal" test (insertion sort); it
    stands for [sort_values] and for the key ordering of [groupby]. *)
Fixpoint insert_sorted {A} (leb : A → A → bool) (x : A) (l : list A) : list A :=
  match l with
  | [] => [x]
  | y :: l' => if leb x y then x :: y :: l' else y :: insert_sorted leb x l'
  end.

Definition sort_values {A} (leb : A → A → bool) (l : list A) : list A :=
  foldr (insert_sorted leb) [] l.

(** ** Section 2 of the script: the game-level frame *)

(** A play of the play-by-play frame, with the columns the script reads.
    A numeric cell may be missing ([None] stands for NaN or null). *)
Module Play.
Record t := mk {
  game_id : string;
  season : Z;
  week : Z;
  posteam : option string;
  defteam : option string;
  down : option Z;
  first_down : option Q;
  yardline_100 : option Q;
  pass_attempt : option Q;
  rush_attempt : option Q;
  epa : option Q;
  yards_gained : option Q;
  touchdown : option Q;
  interception : option Q;
  fumble_lost : option Q
}.
End Play.

(** A row of the frame returned by [build_game_level_df]. *)
Module Game.
Record t := mk {
  game_id : string;
  season : Z;
  week : Z;
  posteam : string;
  defteam : string;
  plays : Z;
  total_epa : Q;
  avg_epa : option Q;
  yards : Q;
  tds : Q;
  passes : Q;
  rushes : Q;
  turnovers : Q;
  fumbles : Q;
  third_down_pct : Q;
  fourth_down_pct : Q;
  red_zone_plays : Z
}.
End Game.

(** [(condition).astype(int)] *)
Definition as_int (b : bool) : Q := if b then 1 else 0.

Definition is_value (x : option Q) (v : Q) : bool :=
  match x with Some q => Qeq_bool q v | None => false end.

Definition third_down_converted (p : Play.t) : Q :=
  as_int (bool_decide (Play.down p = Some 3%Z) && is_value (Play.first_down p) 1).

Definition fourth_down_converted (p : Play.t) : Q :=
  as_int (bool_decide (Play.down p = Some 4%Z) && is_value (Play.first_down p) 1).

Definition red_zone_play (p : Play.t) : Z :=
  match Play.yardline_100 p with
  | Some y => if Qle_bool y 20 then 1%Z else 0%Z
  | None => 0%Z
  end.

(** The aggregations ["count"], ["sum"] and ["mean"] of a column with
    missing cells: all three skip them. *)
Definition agg_count (col : list (option Q)) : Z :=
  Z.of_nat (length (omap id col)).

Definition agg_sum (col : list (option Q)) : Q := qsum (omap id col).

Definition agg_mean (col : list (option Q)) : option Q :=
  match omap id col with
  | [] => None
  | obs => Some (mean obs)
  end.

(** The grouping key [["game_id", "season", "week", "posteam", "defteam"]]. *)
Definition group_key : Type := string * Z * Z * string * string.

(** [dropna(subset=["posteam", "defteam"])]: the key of a play that has
    both teams. *)
Definition play_key (p : Play.t) : option group_key :=
  match Play.posteam p, Play.defteam p with
  | Some pos, Some def => Some (Play.game_id p, Play.season p, Play.week p, pos, def)
  | _, _ => None
  end.

(** Lexicographic order of the keys: the order of the groups. *)
Definition key_leb (k1 k2 : group_key) : bool :=
  let '(g1, s1, w1, p1, d1) := k1 in
  let '(g2, s2, w2, p2, d2) := k2 in
  if negb (String.eqb g1 g2) then String.leb g1 g2
  else if negb (s1 =? s2)%Z then (s1 <? s2)%Z
  else if negb (w1 =? w2)%Z then (w1 <? w2)%Z
  else if negb (String.eqb p1 p2) then String.leb p1 p2
  else String.leb d1 d2.

(** The [.agg(...)] of one group. *)
Definition aggregate (k : group_key) (group : list Play.t) : Game.t :=
  let '(g, s, w, pos, def) := k in
  Game.mk g s w pos def
    (agg_count (map Play.epa group))
    (agg_sum (map Play.epa group))
    (agg_mean (map Play.epa group))
    (agg_sum (map Play.yards_gained group))
    (agg_sum (map Play.touchdown group))
    (agg_sum (map Play.pass_attempt group))
    (agg_sum (map Play.rush_attempt group))
    (agg_sum (map Play.interception group))
    (agg_sum (map Play.fumble_lost group))
    (mean (map third_down_converted group))
    (mean (map fourth_down_converted group))
    (foldr Z.add 0%Z (map red_zone_play group)).

(** [build_game_level_df(pbp)]: one row per distinct key among the plays
    that have both teams, in ascending order of the key. *)
Definition build_game_level_df (pbp : list Play.t) : list Game.t :=
  let df := filter (λ p, is_Some (play_key p)) pbp in
  let keys := sort_values key_leb (unique (omap play_key df)) in
  map (λ k, aggregate k (filter (λ p, play_key p = Some k) df)) keys.

Definition game_key (r : Game.t) : group_key :=
  (Game.game_id r, Game.season r, Game.week r, Game.posteam r, Game.defteam r).

(** ** Section 3 of the script: the final scores *)

(** A row of a schedule frame: the game, its two teams, the final scores
    (missing for a game without a result) and the odds and venue cells
    that section 11 passes through. *)
Module Schedule.
Record t := mk {
  game_id : string;
  home_team : string;
  away_team : string;
  home_score : option Q;
  away_score : option Q;
  meta : gmap string string
}.
End Schedule.

(** A row of [scores_long]. *)
Record ScoreLine := mkScoreLine {
  sl_game_id : string;
  sl_team : string;
  sl_opp : string;
  sl_score : option Q
}.

(** [pd.concat([home, away])]: the home lines of all games, then the
    away lines. *)
Definition scores_long (scores : list Schedule.t) : list ScoreLine :=
  map (λ s, mkScoreLine (Schedule.game_id s) (Schedule.home_team s)
              (Schedule.away_team s) (Schedule.home_score s)) scores ++
  map (λ s, mkScoreLine (Schedule.game_id s) (Schedule.away_team s)
              (Schedule.home_team s) (Schedule.away_score s)) scores.

(** [hist_games.merge(scores_long, left_on=["game_id","posteam"],
    right_on=["game_id","team"])]: an inner join; every pair of a game
    row and a score line with the same game and team, in the order of
    the game rows. *)
Definition merge_scores (hist_games : list Game.t) (lines : list ScoreLine)
    : list (Game.t * ScoreLine) :=
  hist_games ≫= λ g,
    (λ s, (g, s))
    <$> filter (λ s, sl_game_id s = Game.game_id g ∧ sl_team s = Game.posteam g) lines.

(** ** Section 4 of the script: the historical frame *)

Definition base_feature_cols : list string :=
  ["plays"; "total_epa"; "avg_epa"; "yards"; "tds"; "passes"; "rushes";
   "turnovers"; "fumbles"; "third_down_pct"; "fourth_down_pct";
   "red_zone_plays"]%string.

(** A row of [hist_merged]: the keys of the game, the final score and the
    numeric statistic columns, read by column name. *)
Record Row := mkRow {
  game_id : string;
  season : Z;
  week : Z;
  team : string;
  opp : string;
  score : Q;
  stats : string → Q
}.

(** [df[cols].mean()]: the mean of every column over the frame. *)
Definition col_means (df : list Row) : string → Q :=
  λ c, mean (map (λ r, stats r c) df).

(** The order of [sort_values(["team","season","week"])]: by team name,
    then by season, then by week. *)
Definition row_leb (r1 r2 : Row) : bool :=
  if String.eqb (team r1) (team r2) then
    if (season r1 =? season r2)%Z then (week r1 <=? week r2)%Z
    else (season r1 <? season r2)%Z
  else String.leb (team r1) (team r2).

(** [r1] is not played after [r2]: chronological order of two games. *)
Definition chrono_le (r1 r2 : Row) : Prop :=
  (season r1 < season r2 ∨ season r1 = season r2 ∧ week r1 ≤ week r2)%Z.

(** The values that [rolling(window, min_periods=1)] averages at
    position [i]: those at positions [i + 1 - window .. i], cut off at
    the start of the column. *)
Definition rolling_window {A} (window i : nat) (xs : list A) : list A :=
  drop (S i - window) (take (S i) xs).

(** [column.rolling(window, min_periods=1).mean()] *)
Definition rolling_mean (window : nat) (xs : list Q) : list Q :=
  imap (λ i _, mean (rolling_window window i xs)) xs.

Definition set_stats (r : Row) (f : string → Q) : Row :=
  mkRow (game_id r) (season r) (week r) (team r) (opp r) (score r) f.

(** [team_df[base_feature_cols] =
       team_df[base_feature_cols].rolling(window, min_periods=1).mean()] *)
Definition roll_team (window : nat) (team_df : list Row) : list Row :=
  imap (λ i r,
          set_stats r (λ c,
            if decide (c ∈ base_feature_cols)
            then default 0 (rolling_mean window (map (λ x, stats x c) team_df) !! i)
            else stats r c))
       team_df.

(** [compute_rolling_team_stats(df, n_seasons)].  The result is [None]
    where pandas raises: [pd.concat] of no frames (an empty [df]) and a
    window of zero rows with [min_periods=1]. *)
Definition compute_rolling_team_stats (df : list Row) (n_seasons : nat)
    : option (list Row) :=
  let df := sort_values row_leb df in
  let window := (n_seasons * 17)%nat in
  let teams := unique (map team df) in
  if decide (teams = []) then None
  else if decide (window = 0%nat) then None
  else Some (teams ≫= λ t, roll_team window (filter (λ r, team r = t) df)).

(** The cells of a row that the rolling step does not touch. *)
Definition row_id (r : Row) : string * Z * Z * string * string * Q :=
  (game_id r, season r, week r, team r, opp r, score r).

(** ** Section 5: opponent-adjusted features *)

(** [df[(df['team']==row['opp']) & (df['season']<row['season'])]] *)
Definition prior_opp_rows (df : list Row) (row : Row) : list Row :=
  filter (λ r, team r = opp row ∧ (season r < season row)%Z) df.

(** [frame.groupby('team')[base_feature_cols].mean()]: one line per
    distinct team, in ascending order of the team name, holding the mean
    of each column over that team's rows. *)
Definition groupby_team_mean (frame : list Row) : list (string * (string → Q)) :=
  map (λ t, (t, col_means (filter (λ r, team r = t) frame)))
      (sort_values String.leb (unique (map team frame))).

(** A row together with the labels added to it by the loop
    [row[f"{col}_vs_opp"] = ...]. *)
Record MatchupRow := mkMatchupRow {
  base : Row;
  extra : gmap string Q
}.

Definition vs_opp (col : string) : string := col +:+ "_vs_opp".

(** Body of the [iterrows] loop for one [row] of [df]. *)
Definition adjust_row (df : list Row) (row : Row) : MatchupRow :=
  let team_stats := stats row in
  let opp_stats := groupby_team_mean (prior_opp_rows df row) in
  let team_stats_vs_opp : string → Q :=
    match last opp_stats with
    | Some (_, opp_last) => λ c, team_stats c - opp_last c
    | None => λ c, team_stats c - col_means df c
    end in
  mkMatchupRow row
    (foldl (λ m col, <[vs_opp col := team_stats_vs_opp col]> m) ∅ base_feature_cols).

Definition add_matchup_adjusted_features (df : list Row) : list MatchupRow :=
  map (adjust_row df) df.

(** Two frames that agree, row for row and in order, on everything but
    the rows of team [O] with season [S] or later: those rows may be
    changed, added or removed at will. *)
Definition same_outside_opp_from (O : string) (S : Z) (df1 df2 : list Row) : Prop :=
  filter (λ r, ¬ (team r = O ∧ (S ≤ season r)%Z)) df1 =
  filter (λ r, ¬ (team r = O ∧ (S ≤ season r)%Z)) df2.

(** ** Section 9: blending and rounding a predicted score *)

(** [x // d] and [x % d] on numbers: the floor of the quotient and what
    is left of [x]. *)
Definition floordiv (x d : Q) : Q := inject_Z (Qfloor (x / d)).
Definition pymod (x d : Q) : Q := x - d * floordiv x d.

Definition Qlt_bool (x y : Q) : bool := negb (Qle_bool y x).

(** [numpy.argmin]: the index of the first occurrence of the minimum. *)
Fixpoint argmin_from (best_i : nat) (best : Q) (i : nat) (l : list Q) : nat :=
  match l with
  | [] => best_i
  | x :: l' =>
      if Qlt_bool x best then argmin_from i x (S i) l'
      else argmin_from best_i best (S i) l'
  end.

Definition argmin (l : list Q) : nat :=
  match l with
  | [] => 0%nat
  | x :: l' => argmin_from 0 x 1 l'
  end.

(** The last statement of [blend_common_score]:
    [multiples[np.abs(multiples - (score % 10)).argmin()] + 10 * (score // 10)]. *)
Definition snap (score : Q) : Q :=
  let multiples := [3; 7] in
  nth (argmin (map (λ m, Qabs (m - pymod score 10)) multiples)) multiples 0
  + 10 * floordiv score 10.

(** [team_common_scores] is a [Series] indexed by team; [blend_common]
    and [add_points] are the keyword arguments of [make_prediction_df]. *)
Definition blend_common_score (team_common_scores : gmap string Q)
    (blend_common add_points : Q) (team : string) (score : Q) : Q :=
  let score :=
    match team_common_scores !! team with
    | Some common => score * (1 - blend_common) + common * blend_common
    | None => score
    end in
  let score := score + add_points in
  snap score.

Definition default_blend_common : Q := 3 # 10.
Definition default_add_points : Q := 3.

(** ** Section 9: feature rows of the upcoming schedule *)

Definition HOME_FIELD_ADV : Q := 5 # 2.

(** The columns of the schedule that the script reads. *)
Record ScheduleRow := mkScheduleRow {
  sched_game_id : string;
  sched_home_team : string;
  sched_away_team : string
}.

(** Values held by the [entry] dictionary. *)
Inductive value :=
  | VStr (s : string)
  | VBool (b : bool)
  | VNum (q : Q).

(** "Base feature assignment".  [team_baselines] is a frame indexed by
    team with the columns [base_feature_cols]; [games_recent] is the
    frame of the recent seasons. *)
Definition base_feature_assignment
    (team_baselines : gmap string (string → Q)) (games_recent : list Row)
    (team opp : string) (entry : gmap string value) : gmap string value :=
  match team_baselines !! team with
  | Some team_line =>
      foldl (λ entry col,
               let baseline := team_line col in
               let opp_adj :=
                 match team_baselines !! opp with
                 | Some opp_line => opp_line col
                 | None => 0
                 end in
               <[col := VNum (baseline - opp_adj)]> entry)
            entry base_feature_cols
  | None =>
      foldl (λ entry col, <[col := VNum (col_means games_recent col)]> entry)
            entry base_feature_cols
  end.

(** "Home field advantage": [entry["total_epa"] += HOME_FIELD_ADV] for
    the home side; [None] when the key is missing or not a number. *)
Definition home_field_advantage (is_home : bool) (entry : gmap string value)
    : option (gmap string value) :=
  if is_home then
    match entry !! "total_epa" with
    | Some (VNum v) => Some (<["total_epa" := VNum (v + HOME_FIELD_ADV)]> entry)
    | _ => None
    end
  else Some entry.

(** [for col in base_feature_cols: entry[f"{col}_vs_opp"] = 0] *)
Definition neutral_vs_opp (entry : gmap string value) : gmap string value :=
  foldl (λ entry col, <[vs_opp col := VNum 0]> entry) entry base_feature_cols.

Definition new_entry (game_id team opp : string) (is_home : bool) : gmap string value :=
  <["is_home" := VBool is_home]>
    (<["opp" := VStr opp]> (<["team" := VStr team]> {[ "game_id" := VStr game_id ]})).

(** Body of the inner loop of [make_prediction_df] for one side of a game. *)
Definition make_entry
    (team_baselines : gmap string (string → Q)) (games_recent : list Row)
    (game_id team opp : string) (is_home : bool) : option (gmap string value) :=
  let entry := new_entry game_id team opp is_home in
  let entry := base_feature_assignment team_baselines games_recent team opp entry in
  entry ← home_field_advantage is_home entry;
  Some (neutral_vs_opp entry).

(** The two sides of a scheduled game, home side first. *)
Definition sides (row : ScheduleRow) : list (string * string * string * bool) :=
  [ (sched_game_id row, sched_home_team row, sched_away_team row, true);
    (sched_game_id row, sched_away_team row, sched_home_team row, false) ].

Definition feature_cols : list string :=
  base_feature_cols ++ map vs_opp base_feature_cols.

(** The keys written when an [entry] is created. *)
Definition meta_cols : list string := ["game_id"; "team"; "opp"; "is_home"]%string.

Definition num_at (entry : gmap string value) (col : string) : option Q :=
  match entry !! col with
  | Some (VNum q) => Some q
  | _ => None
  end.

Definition str_at (entry : gmap string value) (col : string) : option string :=
  match entry !! col with
  | Some (VStr s) => Some s
  | _ => None
  end.

(** The model's prediction for one row, blended and snapped.  [model]
    stands for [model.predict] on one row of [df_pred[feature_cols]]. *)
Definition predict_row (model : list Q → Q) (team_common_scores : gmap string Q)
    (blend_common add_points : Q) (entry : gmap string value)
    : option (gmap string value) :=
  features ← mapM (num_at entry) feature_cols;
  team ← str_at entry "team";
  Some (<["predicted_score" :=
            VNum (blend_common_score team_common_scores blend_common add_points
                    team (model features))]> entry).

(** [make_prediction_df(schedule, blend_common, add_points)].  With no
    entry at all, [pd.DataFrame(preds)] has no column and
    [df_pred[feature_cols]] raises [KeyError]: the result is [None]. *)
Definition make_prediction_df
    (team_baselines : gmap string (string → Q)) (games_recent : list Row)
    (model : list Q → Q) (team_common_scores : gmap string Q)
    (schedule : list ScheduleRow) (blend_common add_points : Q)
    : option (list (gmap string value)) :=
  preds ← mapM (λ '(game_id, team, opp, is_home),
                  make_entry team_baselines games_recent game_id team opp is_home)
               (schedule ≫= sides);
  match preds with
  | [] => None
  | _ :: _ =>
      mapM (predict_row model team_common_scores blend_common add_points) preds
  end.

(** ** Section 8: the baselines of the recent seasons *)

(** [games_recent.groupby("team")[base_feature_cols].mean()] with the
    team as index. *)
Definition team_baselines_of (games_recent : list Row) : gmap string (string → Q) :=
  list_to_map (groupby_team_mean games_recent).

(** The number that "base feature assignment" and the home-field step
    leave in a base column of the entry of [team] against [opp]. *)
Definition base_feature
    (team_baselines : gmap string (string → Q)) (games_recent : list Row)
    (team opp : string) (is_home : bool) (col : string) : Q :=
  let assigned :=
    match team_baselines !! team with
    | Some team_line =>
        team_line col - match team_baselines !! opp with
                        | Some opp_line => opp_line col
                        | None => 0
                        end
    | None => col_means games_recent col
    end in
  if bool_decide (is_home = true ∧ col = "total_epa"%string)
  then assigned + HOME_FIELD_ADV else assigned.

(** ** Section 10: game-level predictions *)

(** The columns of [pred_input] that the pivot reads. *)
Record PredRow := mkPredRow {
  pred_game_id : string;
  pred_team : string;
  pred_is_home : bool;
  predicted_score : Q
}.

Definition to_pred_row (entry : gmap string value) : option PredRow :=
  game_id ← str_at entry "game_id";
  team ← str_at entry "team";
  is_home ← match entry !! "is_home" with Some (VBool b) => Some b | _ => None end;
  score ← num_at entry "predicted_score";
  Some (mkPredRow game_id team is_home score).

Record GamePrediction := mkGamePrediction {
  gp_game_id : string;
  gp_home_team : string;
  home_pred_score : Q;
  gp_away_team : string;
  away_pred_score : Q;
  projected_winner : string
}.

(** [home_preds.merge(away_preds, on="game_id")] followed by
    [np.where(home_pred_score > away_pred_score, home_team, away_team)]. *)
Definition final_preds (pred_input : list PredRow) : list GamePrediction :=
  let home_preds := filter (λ p, pred_is_home p = true) pred_input in
  let away_preds := filter (λ p, pred_is_home p ≠ true) pred_input in
  home_preds ≫= λ h,
    (λ a, mkGamePrediction (pred_game_id h)
            (pred_team h) (predicted_score h)
            (pred_team a) (predicted_score a)
            (if Qlt_bool (predicted_score a) (predicted_score h)
             then pred_team h else pred_team a))
    <$> filter (λ a, pred_game_id a = pred_game_id h) away_preds.

(** ** Section 11: odds, metadata and actual results *)

(** [left.merge(right, on="game_id", how="left")]: every left row, in
    order, paired with each right row of the same game, or with nothing
    when the game has no right row. *)
Definition left_merge {A B C} (key_l : A → string) (key_r : B → string)
    (pair : A → option B → C) (left : list A) (right : list B) : list C :=
  left ≫= λ x,
    match filter (λ y, key_r y = key_l x) right with
    | [] => [pair x None]
    | ys => (λ y, pair x (Some y)) <$> ys
    end.

(** [home_score > away_score] on cells that may be missing: a comparison
    with a missing cell is false. *)
Definition score_gt (home_score away_score : option Q) : bool :=
  match home_score, away_score with
  | Some h, Some a => Qlt_bool a h
  | _, _ => false
  end.

(** A row of the final table. *)
Record FinalRow := mkFinalRow {
  fr_pred : GamePrediction;
  fr_meta : option (gmap string string);
  fr_home_score : option Q;
  fr_away_score : option Q;
  predicted_winner_correct : bool
}.

(** The two left merges with [schedule_2025] and the column
    [predicted_winner_correct]. *)
Definition final_table (final_preds : list GamePrediction)
    (schedule_2025 : list Schedule.t) : list FinalRow :=
  let with_meta :=
    left_merge gp_game_id Schedule.game_id
      (λ g s, (g, Schedule.meta <$> s)) final_preds schedule_2025 in
  let with_scores :=
    left_merge (λ gm, gp_game_id gm.1) Schedule.game_id
      (λ gm s, (gm, s ≫= Schedule.home_score, s ≫= Schedule.away_score))
      with_meta schedule_2025 in
  map (λ '(g, m, home_score, away_score),
         mkFinalRow g m home_score away_score
           (bool_decide
              (projected_winner g =
               if score_gt home_score away_score
               then gp_home_team g else gp_away_team g)))
      with_scores.

(** ** Sample frames *)

(** A row whose statistic columns all hold [v]. *)
Definition sample_row (t o : string) (s w : Z) (v : Q) : Row :=
  mkRow (t +:+ "_" +:+ o) s w t o 0 (λ _, v).

Definition sample_hist : list Row :=
  [ sample_row "AA" "BB" 2020 1 10;
    sample_row "BB" "AA" 2018 1 4;
    sample_row "BB" "AA" 2019 1 8 ].

Definition sample_first_season (bb_now : Q) : list Row :=
  [ sample_row "AA" "BB" 2020 1 10;
    sample_row "BB" "AA" 2020 1 bb_now ].

(** A play of game [g] with [pos] on offense against [def], and the
    expected points it adds. *)
Definition sample_play (g : string) (pos def : option string) (e : Q) : Play.t :=
  Play.mk g 2023 1 pos def (Some 1%Z) (Some 0) (Some 50) (Some 1) (Some 0)
    (Some e) (Some 5) (Some 0) (Some 0) (Some 0).

(** A game in which both teams have plays on offense, and one play
    without a team on offense. *)
Definition sample_pbp : list Play.t :=
  [ sample_play "2023_01_AA_BB" (Some "AA"%string) (Some "BB"%string) 1;
    sample_play "2023_01_AA_BB" (Some "BB"%string) (Some "AA"%string) 2;
    sample_play "2023_01_AA_BB" None None 0;
    sample_play "2023_01_AA_BB" (Some "AA"%string) (Some "BB"%string) 3 ].

(** The row of AA on offense against BB in the sample game. *)
Definition sample_game_row : Game.t :=
  aggregate ("2023_01_AA_BB"%string, 2023%Z, 1%Z, "AA"%string, "BB"%string)
    [ sample_play "2023_01_AA_BB" (Some "AA"%string) (Some "BB"%string) 1;
      sample_play "2023_01_AA_BB" (Some "AA"%string) (Some "BB"%string) 3 ].

(** The schedule row of the sample game: AA at home wins 24 to 17. *)
Definition sample_scores : list Schedule.t :=
  [ Schedule.mk "2023_01_AA_BB" "AA" "BB" (Some 24) (Some 17) ∅ ].

(** A collection in which only AA has plays on offense in the game. *)
Definition sample_pbp_one_sided : list Play.t :=
  [ sample_play "2023_01_AA_BB" (Some "AA"%string) (Some "BB"%string) 1;
    sample_play "2023_01_AA_BB" (Some "AA"%string) (Some "BB"%string) 3 ].

(** Three games of AA, out of order, and one of BB. *)
Definition sample_games : list Row :=
  [ sample_row "AA" "BB" 2020 2 20;
    sample_row "BB" "AA" 2020 1 4;
    sample_row "AA" "CC" 2020 1 10;
    sample_row "AA" "BB" 2021 1 60 ].

(** Two games of AA in order, and a later one. *)
Definition sample_team_games : list Row :=
  [ sample_row "AA" "CC" 2020 1 10; sample_row "AA" "BB" 2020 2 20 ].

Definition sample_later_games : list Row :=
  [ sample_row "AA" "BB" 2021 1 60 ].

(** The rolled frame of the sample games, with a window of 17 rows. *)
Definition sample_rolled : list Row :=
  default [] (compute_rolling_team_stats sample_games 1).

(** Baselines of two teams: every column holds 5 for AA and 2 for BB. *)
Definition sample_baselines : gmap string (string → Q) :=
  <["BB"%string := λ _, 2]> {[ "AA"%string := λ _, 5 ]}.

Definition sample_schedule : list ScheduleRow :=
  [ mkScheduleRow "2025_01_BB_AA" "AA" "BB" ].

(** A predictor that answers 20 for every row. *)
Definition sample_model : list Q → Q := λ _, 20.

(** The prediction frame of the sample schedule and its second row, the
    away side BB. *)
Definition sample_df_pred : list (gmap string value) :=
  default []
    (make_prediction_df sample_baselines [] sample_model ∅ sample_schedule
       default_blend_common default_add_points).

Definition sample_away_row : gmap string value :=
  default ∅ (sample_df_pred !! 1%nat).

Definition sample_home_row : gmap string value :=
  default ∅ (sample_df_pred !! 0%nat).

(** The home row of the sample schedule when no team has a baseline and
    the recent frame is [sample_games]. *)
Definition sample_unknown_row : gmap string value :=
  default ∅
    (default []
       (make_prediction_df ∅ sample_games sample_model ∅ sample_schedule
          default_blend_common default_add_points) !! 0%nat).

(** The upcoming game of the sample schedule, not yet played. *)
Definition sample_schedule_2025 : list Schedule.t :=
  [ Schedule.mk "2025_01_BB_AA" "AA" "BB" None None
      {[ "stadium"%string := "Field"%string ]} ].

(** The row of the final table for the tied sample prediction. *)
Definition sample_final_row : FinalRow :=
  mkFinalRow (mkGamePrediction "2025_01_BB_AA" "AA" 23 "BB" 23 "BB")
    (Schedule.meta <$> head sample_schedule_2025) None None true.

(** Both sides of one game predicted at 23 points. *)
Definition sample_tied_preds : list PredRow :=
  [ mkPredRow "2025_01_BB_AA" "AA" true 23;
    mkPredRow "2025_01_BB_AA" "BB" false 23 ].

(** * Properties *)

(** ** Frame helpers *)

Lemma unique_from_seen `{EqDecision A} (t : A) (seen l : list A) :
  t ∈ seen → Forall (eq t) l → unique_from seen l = [].
Proof.
  intros Hin Hall. induction Hall as [|x l <- _ IH]; simpl; [done|].
  by rewrite decide_True.
Qed.

Lemma unique_all_same `{EqDecision A} (t : A) (l : list A) :
  l ≠ [] → Forall (eq t) l → unique l = [t].
Proof.
  intros Hne Hall. destruct Hall as [|x l <- Hall]; [done|].
  unfold unique. cbn [unique_from].
  destruct (decide (t ∈ [])) as [Hin|_]; [by apply not_elem_of_nil in Hin|].
  f_equal. apply (unique_from_seen t); [apply list_elem_of_here | done].
Qed.

Lemma filter_all {A} (P : A → Prop) `{!∀ x, Decision (P x)} (l : list A) :
  Forall P l → filter P l = l.
Proof.
  induction 1 as [|x l Hx _ IH]; [done|].
  by rewrite filter_cons_True, IH.
Qed.

(** Grouping a non-empty frame whose rows all belong to team [t] gives the
    single line of [t], holding the column means of the whole frame. *)
Lemma groupby_team_mean_single (t : string) (frame : list Row) :
  frame ≠ [] → Forall (λ r, team r = t) frame →
  groupby_team_mean frame = [(t, col_means frame)].
Proof.
  intros Hne Hall. unfold groupby_team_mean.
  rewrite (unique_all_same t).
  - simpl. by rewrite filter_all.
  - by destruct frame.
  - apply Forall_fmap. eapply Forall_impl; [exact Hall|]. by intros r <-.
Qed.

Lemma groupby_team_mean_nil : groupby_team_mean [] = [].
Proof. reflexivity. Qed.

Lemma prior_opp_rows_team (df : list Row) (row : Row) :
  Forall (λ r, team r = opp row) (prior_opp_rows df row).
Proof.
  apply Forall_forall. intros r Hr.
  apply list_elem_of_filter in Hr. tauto.
Qed.

(** ** Labels added by a loop over the columns *)

Lemma string_length_app (s t : string) :
  String.length (s +:+ t) = (String.length s + String.length t)%nat.
Proof. induction s as [|a s IH]; simpl; [done|]. by rewrite IH. Qed.

Lemma app_suffix_inj (t s1 s2 : string) : s1 +:+ t = s2 +:+ t → s1 = s2.
Proof.
  revert s2. induction s1 as [|a s1 IH]; intros [|b s2] Heq; [done|..].
  - apply (f_equal String.length) in Heq.
    rewrite !string_length_app in Heq. simpl in Heq. lia.
  - apply (f_equal String.length) in Heq.
    rewrite !string_length_app in Heq. simpl in Heq. lia.
  - change (String a (s1 +:+ t) = String b (s2 +:+ t)) in Heq.
    injection Heq as -> Heq. f_equal. by apply IH.
Qed.

Lemma vs_opp_inj (c1 c2 : string) : vs_opp c1 = vs_opp c2 → c1 = c2.
Proof. apply app_suffix_inj. Qed.

Section fold_insert.
Context {V : Type} (key : string → string) (val : string → V).
Hypothesis key_inj : ∀ c1 c2, key c1 = key c2 → c1 = c2.

Let assign (m : gmap string V) (cols : list string) : gmap string V :=
  foldl (λ m col, <[key col := val col]> m) m cols.

(** After the loop, the label of every visited column holds the value
    the loop computed for that column. *)
Lemma lookup_assign_cols (cols : list string) (m : gmap string V) (c : string) :
  c ∈ cols ∨ m !! key c = Some (val c) →
  assign m cols !! key c = Some (val c).
Proof using key_inj.
  subst assign. revert m. induction cols as [|x cols IH]; intros m H; simpl.
  - destruct H as [H|H]; [by apply not_elem_of_nil in H | done].
  - apply IH. destruct (decide (x = c)) as [->|Hne].
    + right. apply lookup_insert_eq.
    + destruct H as [H|H].
      * left. apply elem_of_cons in H as [->|H]; done.
      * right. rewrite lookup_insert_ne; [done|].
        intros Hk. by apply key_inj in Hk.
Qed.

(** The loop leaves every label alone that is not the label of a
    visited column. *)
Lemma lookup_assign_other (cols : list string) (m : gmap string V) (k : string) :
  (∀ c, c ∈ cols → key c ≠ k) → assign m cols !! k = m !! k.
Proof using Type.
  subst assign. revert m. induction cols as [|x cols IH]; intros m H; simpl; [done|].
  rewrite IH.
  - apply lookup_insert_ne, H, list_elem_of_here.
  - intros c Hc. apply H. by apply list_elem_of_further.
Qed.
End fold_insert.

(** ** Opponent adjustment *)

(** The value the loop body subtracts from the row's own statistic. *)
Lemma adjust_row_extra (df : list Row) (row : Row) (c : string) :
  c ∈ base_feature_cols →
  extra (adjust_row df row) !! vs_opp c =
    Some (stats row c -
          match last (groupby_team_mean (prior_opp_rows df row)) with
          | Some (_, opp_last) => opp_last c
          | None => col_means df c
          end).
Proof.
  intros Hc. unfold adjust_row. cbn [extra].
  rewrite (lookup_assign_cols vs_opp _ vs_opp_inj) by (by left).
  by destruct (last _) as [[??]|].
Qed.

Lemma prior_opp_rows_nonempty (df : list Row) (row : Row) :
  (∃ r, r ∈ df ∧ team r = opp row ∧ (season r < season row)%Z) ↔
  prior_opp_rows df row ≠ [].
Proof.
  unfold prior_opp_rows. split.
  - intros (r & Hin & Ht & Hs) Hnil.
    eapply filter_nil_not_elem_of; [exact Hnil| |exact Hin]. done.
  - intros Hne. destruct (filter _ df) as [|r l] eqn:Hf; [done|].
    exists r. assert (Hr : r ∈ filter (λ r, team r = opp row ∧ (season r < season row)%Z) df)
      by (rewrite Hf; apply list_elem_of_here).
    apply list_elem_of_filter in Hr. tauto.
Qed.

Lemma last_groupby_prior (df : list Row) (row : Row) :
  prior_opp_rows df row ≠ [] →
  last (groupby_team_mean (prior_opp_rows df row)) =
    Some (opp row, col_means (prior_opp_rows df row)).
Proof.
  intros Hne.
  by rewrite (groupby_team_mean_single (opp row)) by
    (done || apply prior_opp_rows_team).
Qed.

(** C1 (as the code has it): when the opponent has rows of earlier
    seasons, the baseline subtracted from a row's own rolling statistic is
    the mean of that statistic over all of those rows. *)
Theorem opponent_baseline_is_prior_mean
    (df : list Row) (i : nat) (R : Row) (c : string) :
  df !! i = Some R →
  c ∈ base_feature_cols →
  (∃ r, r ∈ df ∧ team r = opp R ∧ (season r < season R)%Z) →
  ∃ R', add_matchup_adjusted_features df !! i = Some R' ∧
        base R' = R ∧
        extra R' !! vs_opp c =
          Some (stats R c - mean (map (λ r, stats r c) (prior_opp_rows df R))).
Proof.
  intros Hi Hc Hex. exists (adjust_row df R). split; [|split].
  - unfold add_matchup_adjusted_features. by rewrite list_lookup_fmap, Hi.
  - done.
  - rewrite adjust_row_extra by done.
    apply prior_opp_rows_nonempty in Hex.
    by rewrite last_groupby_prior.
Qed.

(** C3: when the opponent has no row of an earlier season, the value
    subtracted is the mean of the statistic over the whole frame. *)
Theorem opponent_fallback_is_global_mean
    (df : list Row) (i : nat) (R : Row) (c : string) :
  df !! i = Some R →
  c ∈ base_feature_cols →
  (∀ r, r ∈ df → ¬ (team r = opp R ∧ (season r < season R)%Z)) →
  ∃ R', add_matchup_adjusted_features df !! i = Some R' ∧
        base R' = R ∧
        extra R' !! vs_opp c =
          Some (stats R c - mean (map (λ r, stats r c) df)).
Proof.
  intros Hi Hc Hnone. exists (adjust_row df R). split; [|split].
  - unfold add_matchup_adjusted_features. by rewrite list_lookup_fmap, Hi.
  - done.
  - rewrite adjust_row_extra by done.
    assert (Hnil : prior_opp_rows df R = []).
    { destruct (prior_opp_rows df R) as [|r l] eqn:Hp; [done|].
      assert (Hne : prior_opp_rows df R ≠ []) by by rewrite Hp.
      apply prior_opp_rows_nonempty in Hne as (r' & Hin & H). by destruct (Hnone r' Hin). }
    by rewrite Hnil.
Qed.

(** The opponent's earlier rows are the same in two frames that differ
    only in the opponent's rows of the current or a later season. *)
Lemma prior_opp_rows_same_outside (df1 df2 : list Row) (R : Row) :
  same_outside_opp_from (opp R) (season R) df1 df2 →
  prior_opp_rows df1 R = prior_opp_rows df2 R.
Proof.
  unfold same_outside_opp_from, prior_opp_rows. intros Heq.
  rewrite <- (list_filter_filter_l _ (λ r, ¬ (team r = opp R ∧ (season R ≤ season r)%Z)) df1)
    by (intros r [_ Hlt] [_ Hge]; lia).
  rewrite <- (list_filter_filter_l _ (λ r, ¬ (team r = opp R ∧ (season R ≤ season r)%Z)) df2)
    by (intros r [_ Hlt] [_ Hge]; lia).
  by rewrite Heq.
Qed.

(** C2 (as the code has it): when the opponent has rows of earlier
    seasons, the adjusted row of a game is the same in any two frames
    that differ only in the opponent's rows of that season or later. *)
Theorem prior_season_noninterference
    (df1 df2 : list Row) (i j : nat) (R : Row) :
  df1 !! i = Some R → df2 !! j = Some R →
  same_outside_opp_from (opp R) (season R) df1 df2 →
  (∃ r, r ∈ df1 ∧ team r = opp R ∧ (season r < season R)%Z) →
  add_matchup_adjusted_features df1 !! i = add_matchup_adjusted_features df2 !! j.
Proof.
  intros Hi Hj Hsame Hex. unfold add_matchup_adjusted_features.
  rewrite !list_lookup_fmap, Hi, Hj. cbn. f_equal.
  apply prior_opp_rows_nonempty in Hex.
  pose proof (prior_opp_rows_same_outside _ _ _ Hsame) as Hp.
  unfold adjust_row. rewrite <- Hp, last_groupby_prior by done. done.
Qed.

Ltac in_list := apply (bool_decide_unpack _); vm_compute; exact I.
Ltac at_index n := apply list_elem_of_lookup; exists n; reflexivity.

Lemma opponent_baseline_is_prior_mean_witness :
  ∃ R', add_matchup_adjusted_features sample_hist !! 0%nat = Some R' ∧
        base R' = sample_row "AA" "BB" 2020 1 10 ∧
        extra R' !! vs_opp "plays" =
          Some (10 - mean (map (λ r, stats r "plays")
                  (prior_opp_rows sample_hist (sample_row "AA" "BB" 2020 1 10)))).
Proof.
  apply (opponent_baseline_is_prior_mean sample_hist 0
           (sample_row "AA" "BB" 2020 1 10) "plays").
  - reflexivity.
  - in_list.
  - exists (sample_row "BB" "AA" 2018 1 4). split; [at_index 1%nat|].
    split; [reflexivity|]. simpl. lia.
Defined.

(** C1 as worded fails: team BB has the rows of 2018 (statistic 4) and
    2019 (statistic 8) before AA's game of 2020 (statistic 10).  The last
    of them would give 10 - 8 = 2; the frame computes 10 - (4+8)/2 = 4. *)
Lemma opponent_baseline_not_last_row :
  sample_hist !! 0%nat = Some (sample_row "AA" "BB" 2020 1 10) ∧
  last (prior_opp_rows sample_hist (sample_row "AA" "BB" 2020 1 10)) =
    Some (sample_row "BB" "AA" 2019 1 8) ∧
  ∃ R' v, add_matchup_adjusted_features sample_hist !! 0%nat = Some R' ∧
          extra R' !! vs_opp "plays" = Some v ∧
          v == 4 ∧
          ¬ v == stats (sample_row "AA" "BB" 2020 1 10) "plays"
                 - stats (sample_row "BB" "AA" 2019 1 8) "plays".
Proof.
  split; [reflexivity|]. split; [reflexivity|].
  exists (adjust_row sample_hist (sample_row "AA" "BB" 2020 1 10)), (8 # 2).
  split; [reflexivity|]. split; [by vm_compute|].
  split; [reflexivity|]. intros H. vm_compute in H. discriminate H.
Qed.

Lemma prior_season_noninterference_witness :
  add_matchup_adjusted_features sample_hist !! 0%nat =
  add_matchup_adjusted_features
    (sample_hist ++ [sample_row "BB" "CC" 2020 1 99; sample_row "BB" "DD" 2021 1 50])
    !! 0%nat.
Proof.
  apply (prior_season_noninterference sample_hist _ 0 0
           (sample_row "AA" "BB" 2020 1 10)).
  - reflexivity.
  - reflexivity.
  - reflexivity.
  - exists (sample_row "BB" "AA" 2018 1 4). split; [at_index 1%nat|].
    split; [reflexivity|]. simpl. lia.
Defined.

(** C2 as worded fails when the opponent has no earlier season: the two
    frames differ only in BB's row of 2020, the season of AA's game, and
    the adjusted value of AA's game is 10 - (10+4)/2 = 3 in one and
    10 - (10+8)/2 = 1 in the other. *)
Lemma fallback_reads_current_season_rows :
  same_outside_opp_from "BB" 2020 (sample_first_season 4) (sample_first_season 8) ∧
  sample_first_season 4 !! 0%nat = Some (sample_row "AA" "BB" 2020 1 10) ∧
  sample_first_season 8 !! 0%nat = Some (sample_row "AA" "BB" 2020 1 10) ∧
  ∃ R1 R2 v1 v2,
    add_matchup_adjusted_features (sample_first_season 4) !! 0%nat = Some R1 ∧
    add_matchup_adjusted_features (sample_first_season 8) !! 0%nat = Some R2 ∧
    extra R1 !! vs_opp "plays" = Some v1 ∧
    extra R2 !! vs_opp "plays" = Some v2 ∧
    v1 == 3 ∧ v2 == 1 ∧ ¬ v1 == v2.
Proof.
  split; [reflexivity|]. split; [reflexivity|]. split; [reflexivity|].
  exists (adjust_row (sample_first_season 4) (sample_row "AA" "BB" 2020 1 10)),
         (adjust_row (sample_first_season 8) (sample_row "AA" "BB" 2020 1 10)),
         (6 # 2), (2 # 2).
  split; [reflexivity|]. split; [reflexivity|].
  split; [by vm_compute|]. split; [by vm_compute|].
  split; [reflexivity|]. split; [reflexivity|].
  intros H. vm_compute in H. discriminate H.
Qed.

Lemma opponent_fallback_is_global_mean_witness :
  ∃ R', add_matchup_adjusted_features (sample_first_season 4) !! 0%nat = Some R' ∧
        base R' = sample_row "AA" "BB" 2020 1 10 ∧
        extra R' !! vs_opp "plays" =
          Some (10 - mean (map (λ r, stats r "plays") (sample_first_season 4))).
Proof.
  apply (opponent_fallback_is_global_mean (sample_first_season 4) 0
           (sample_row "AA" "BB" 2020 1 10) "plays").
  - reflexivity.
  - in_list.
  - intros r Hr [Ht Hs]. revert Hs.
    apply elem_of_cons in Hr as [->|Hr]; [simpl; lia|].
    apply list_elem_of_singleton in Hr as ->. simpl. lia.
Defined.

(** ** Blending and rounding *)

Lemma floor_remainder_range (s : Q) :
  0 <= s - 10 * inject_Z (Qfloor (s / 10)) < 10.
Proof.
  pose proof (Qfloor_le (s / 10)) as Hlo.
  pose proof (Qlt_floor (s / 10)) as Hhi.
  rewrite inject_Z_plus in Hhi.
  assert (Hs : s == 10 * (s / 10)) by (field; discriminate).
  change (inject_Z 1) with 1 in Hhi.
  split; lra.
Qed.

Lemma Qlt_bool_iff (x y : Q) : Qlt_bool x y = true ↔ x < y.
Proof.
  unfold Qlt_bool. rewrite negb_true_iff.
  destruct (Qle_bool y x) eqn:H.
  - apply Qle_bool_iff in H. split; [done | lra].
  - split; [|done]. intros _. apply Qnot_le_lt. intros Hle.
    apply Qle_bool_iff in Hle. congruence.
Qed.

Lemma snap_low (s : Q) :
  s - 10 * inject_Z (Qfloor (s / 10)) <= 5 →
  snap s = 3 + 10 * inject_Z (Qfloor (s / 10)).
Proof.
  intros Hr. pose proof (floor_remainder_range s) as [H0 H10].
  unfold snap, argmin, pymod, floordiv. cbn [map argmin_from].
  set (r := s - 10 * inject_Z (Qfloor (s / 10))) in *.
  destruct (Qlt_bool (Qabs (7 - r)) (Qabs (3 - r))) eqn:Hlt; [|done].
  apply Qlt_bool_iff in Hlt. exfalso. revert Hlt.
  apply Qabs_case; apply Qabs_case; intros; lra.
Qed.

Lemma snap_high (s : Q) :
  5 < s - 10 * inject_Z (Qfloor (s / 10)) →
  snap s = 7 + 10 * inject_Z (Qfloor (s / 10)).
Proof.
  intros Hr. pose proof (floor_remainder_range s) as [H0 H10].
  unfold snap, argmin, pymod, floordiv. cbn [map argmin_from].
  set (r := s - 10 * inject_Z (Qfloor (s / 10))) in *.
  destruct (Qlt_bool (Qabs (7 - r)) (Qabs (3 - r))) eqn:Hlt; [done|].
  exfalso. assert (Hn : ¬ Qabs (7 - r) < Qabs (3 - r)).
  { intros H. apply Qlt_bool_iff in H. congruence. }
  apply Hn. apply Qabs_case; apply Qabs_case; intros; lra.
Qed.

(** C5: with [q] the floor of [s / 10] and [r = s - 10 q], the remainder
    lies in [0, 10) and the snap step returns [10 q + c] where [c] is the
    one of 3 and 7 nearest to [r], and 3 when [r] is 5; so the result is
    an integer congruent to 3 or 7 modulo 10. *)
Theorem snap_nearest_of_3_and_7 (s : Q) :
  let q := Qfloor (s / 10) in
  let r := s - 10 * inject_Z q in
  s == 10 * inject_Z q + r ∧
  0 <= r < 10 ∧
  (∃ c : Q,
      (c = 3 ∨ c = 7) ∧
      Qabs (c - r) <= Qabs (3 - r) ∧
      Qabs (c - r) <= Qabs (7 - r) ∧
      (r == 5 → c = 3) ∧
      snap s == 10 * inject_Z q + c) ∧
  (snap s == inject_Z (10 * q + 3) ∨ snap s == inject_Z (10 * q + 7)).
Proof.
  intros q r. pose proof (floor_remainder_range s) as Hrange.
  fold q in Hrange. fold r in Hrange.
  split; [subst r; ring|]. split; [exact Hrange|].
  destruct (Qlt_le_dec 5 r) as [Hhi|Hlo].
  - pose proof (snap_high s Hhi) as Hs. fold q in Hs. split.
    + exists 7. split; [by right|]. split; [|split; [|split]].
      * apply Qabs_case; apply Qabs_case; intros; lra.
      * apply Qle_refl.
      * intros H5. lra.
      * rewrite Hs. ring.
    + right. rewrite Hs, inject_Z_plus, inject_Z_mult. ring.
  - pose proof (snap_low s Hlo) as Hs. fold q in Hs. split.
    + exists 3. split; [by left|]. split; [|split; [|split]].
      * apply Qle_refl.
      * apply Qabs_case; apply Qabs_case; intros; lra.
      * done.
      * rewrite Hs. ring.
    + left. rewrite Hs, inject_Z_plus, inject_Z_mult. ring.
Qed.

Example snap_tie : snap 25 == 23.
Proof. reflexivity. Qed.

Example snap_above_tie : snap (51 # 2) == 27.
Proof. reflexivity. Qed.

Example snap_small_remainder : snap 20 == 23.
Proof. reflexivity. Qed.

Example snap_negative : snap (-1) == -3.
Proof. reflexivity. Qed.

(** C6: for a team without an entry in [team_common_scores] the score is
    not blended: the constant (3 by default) is added to the raw score
    and the sum is snapped. *)
Theorem blend_skipped_without_common_score
    (team_common_scores : gmap string Q) (blend_common add_points : Q)
    (team : string) (x : Q) :
  team_common_scores !! team = None →
  blend_common_score team_common_scores blend_common add_points team x =
    snap (x + add_points) ∧
  blend_common_score team_common_scores default_blend_common default_add_points team x =
    snap (x + 3).
Proof.
  intros Hnone. unfold blend_common_score. by rewrite Hnone.
Qed.

Lemma blend_skipped_without_common_score_witness :
  blend_common_score {[ "AA"%string := 24 ]} (3 # 10) 3 "ZZ" 20 = snap (20 + 3) ∧
  blend_common_score {[ "AA"%string := 24 ]} default_blend_common default_add_points "ZZ" 20 =
    snap (20 + 3).
Proof.
  apply (blend_skipped_without_common_score {[ "AA"%string := 24 ]} (3 # 10) 3 "ZZ" 20).
  reflexivity.
Defined.

Example blend_with_common_score :
  blend_common_score {[ "AA"%string := 24 ]} default_blend_common default_add_points "AA" 20
  == 23.
Proof. reflexivity. Qed.

(** ** Feature rows of the schedule *)

Lemma lookup_foldl_insert_ext {V} (key : string → string) (val : string → V)
    (cols : list string) (m1 m2 : gmap string V) (k : string) :
  m1 !! k = m2 !! k →
  foldl (λ m col, <[key col := val col]> m) m1 cols !! k =
  foldl (λ m col, <[key col := val col]> m) m2 cols !! k.
Proof.
  revert m1 m2. induction cols as [|x cols IH]; intros m1 m2 H; simpl; [done|].
  apply IH. rewrite !lookup_insert. by case_decide.
Qed.

Lemma vs_opp_not_base :
  Forall (λ c, Forall (λ c', vs_opp c ≠ c') base_feature_cols) base_feature_cols.
Proof. apply (bool_decide_unpack _). vm_compute. exact I. Qed.

Lemma vs_opp_ne_base (c c' : string) :
  c ∈ base_feature_cols → c' ∈ base_feature_cols → vs_opp c ≠ c'.
Proof.
  intros Hc Hc'. pose proof vs_opp_not_base as H.
  rewrite Forall_forall in H. specialize (H c Hc).
  rewrite Forall_forall in H. by apply H.
Qed.

Lemma total_epa_base : "total_epa"%string ∈ base_feature_cols.
Proof. apply (bool_decide_unpack _). vm_compute. exact I. Qed.

Lemma base_feature_assignment_present
    (team_baselines : gmap string (string → Q)) (games_recent : list Row)
    (team opp : string) (entry : gmap string value)
    (team_line : string → Q) (c : string) :
  team_baselines !! team = Some team_line →
  c ∈ base_feature_cols →
  base_feature_assignment team_baselines games_recent team opp entry !! c =
    Some (VNum (team_line c -
                match team_baselines !! opp with
                | Some opp_line => opp_line c
                | None => 0
                end)).
Proof.
  intros Ht Hc. unfold base_feature_assignment. rewrite Ht.
  apply (lookup_assign_cols (λ col, col)
           (λ col, VNum (team_line col -
                         match team_baselines !! opp with
                         | Some opp_line => opp_line col
                         | None => 0
                         end))); [done | by left].
Qed.

Lemma base_feature_assignment_absent
    (team_baselines : gmap string (string → Q)) (games_recent : list Row)
    (team opp : string) (entry : gmap string value) (c : string) :
  team_baselines !! team = None →
  c ∈ base_feature_cols →
  base_feature_assignment team_baselines games_recent team opp entry !! c =
    Some (VNum (col_means games_recent c)).
Proof.
  intros Ht Hc. unfold base_feature_assignment. rewrite Ht.
  apply (lookup_assign_cols (λ col, col)
           (λ col, VNum (col_means games_recent col))); [done | by left].
Qed.

Lemma base_feature_assignment_numeric
    (team_baselines : gmap string (string → Q)) (games_recent : list Row)
    (team opp : string) (entry : gmap string value) (c : string) :
  c ∈ base_feature_cols →
  ∃ v, base_feature_assignment team_baselines games_recent team opp entry !! c =
         Some (VNum v).
Proof.
  intros Hc. destruct (team_baselines !! team) as [line|] eqn:Ht.
  - eexists. by eapply base_feature_assignment_present.
  - eexists. by eapply base_feature_assignment_absent.
Qed.

Lemma base_feature_assignment_other
    (team_baselines : gmap string (string → Q)) (games_recent : list Row)
    (team opp : string) (entry : gmap string value) (k : string) :
  k ∉ base_feature_cols →
  base_feature_assignment team_baselines games_recent team opp entry !! k =
    entry !! k.
Proof.
  intros Hk. unfold base_feature_assignment.
  destruct (team_baselines !! team) as [line|].
  - apply (lookup_assign_other (λ col, col)
             (λ col, VNum (line col -
                           match team_baselines !! opp with
                           | Some opp_line => opp_line col
                           | None => 0
                           end))).
    by intros c Hc ->.
  - apply (lookup_assign_other (λ col, col)
             (λ col, VNum (col_means games_recent col))).
    by intros c Hc ->.
Qed.

Lemma neutral_vs_opp_zero (entry : gmap string value) (c : string) :
  c ∈ base_feature_cols → neutral_vs_opp entry !! vs_opp c = Some (VNum 0).
Proof.
  intros Hc. unfold neutral_vs_opp.
  apply (lookup_assign_cols vs_opp (λ _, VNum 0) vs_opp_inj). by left.
Qed.

Lemma neutral_vs_opp_other (entry : gmap string value) (k : string) :
  (∀ c, c ∈ base_feature_cols → vs_opp c ≠ k) →
  neutral_vs_opp entry !! k = entry !! k.
Proof.
  intros Hk. unfold neutral_vs_opp.
  by apply (lookup_assign_other vs_opp (λ _, VNum 0)).
Qed.

Lemma neutral_vs_opp_base (entry : gmap string value) (c : string) :
  c ∈ base_feature_cols → neutral_vs_opp entry !! c = entry !! c.
Proof.
  intros Hc. apply neutral_vs_opp_other. intros c' Hc'. by apply vs_opp_ne_base.
Qed.

Lemma neutral_vs_opp_ext (e1 e2 : gmap string value) (k : string) :
  e1 !! k = e2 !! k → neutral_vs_opp e1 !! k = neutral_vs_opp e2 !! k.
Proof. apply (lookup_foldl_insert_ext vs_opp (λ _, VNum 0)). Qed.

(** The inner loop body never fails: the base columns are assigned
    before the home-field step reads [total_epa]. *)
Lemma make_entry_home
    (team_baselines : gmap string (string → Q)) (games_recent : list Row)
    (game_id team opp : string) :
  ∃ v,
    base_feature_assignment team_baselines games_recent team opp
      (new_entry game_id team opp true) !! "total_epa" = Some (VNum v) ∧
    make_entry team_baselines games_recent game_id team opp true =
      Some (neutral_vs_opp
              (<["total_epa" := VNum (v + HOME_FIELD_ADV)]>
                 (base_feature_assignment team_baselines games_recent team opp
                    (new_entry game_id team opp true)))).
Proof.
  destruct (base_feature_assignment_numeric team_baselines games_recent team opp
              (new_entry game_id team opp true) "total_epa" total_epa_base) as [v Hv].
  exists v. split; [done|].
  unfold make_entry, home_field_advantage. by rewrite Hv.
Qed.

Lemma make_entry_away
    (team_baselines : gmap string (string → Q)) (games_recent : list Row)
    (game_id team opp : string) :
  make_entry team_baselines games_recent game_id team opp false =
    Some (neutral_vs_opp
            (base_feature_assignment team_baselines games_recent team opp
               (new_entry game_id team opp false))).
Proof. reflexivity. Qed.

(** C8: the away side's row is built without any adjustment; the home
    side's row differs from the row built without the adjustment in the
    [total_epa] cell alone, which is 2.5 higher. *)
Theorem home_field_advantage_only_total_epa
    (team_baselines : gmap string (string → Q)) (games_recent : list Row)
    (game_id home away : string) :
  let unadjusted team opp is_home :=
    neutral_vs_opp
      (base_feature_assignment team_baselines games_recent team opp
         (new_entry game_id team opp is_home)) in
  make_entry team_baselines games_recent game_id away home false =
    Some (unadjusted away home false) ∧
  ∃ entry v,
    make_entry team_baselines games_recent game_id home away true = Some entry ∧
    unadjusted home away true !! "total_epa" = Some (VNum v) ∧
    entry !! "total_epa" = Some (VNum (v + (5 # 2))) ∧
    ∀ k, k ≠ "total_epa"%string → entry !! k = unadjusted home away true !! k.
Proof.
  intros unadjusted. split; [apply make_entry_away|].
  destruct (make_entry_home team_baselines games_recent game_id home away)
    as (v & Hv & Hentry).
  eexists _, v. split; [exact Hentry|]. split; [|split].
  - subst unadjusted. cbn beta.
    by rewrite neutral_vs_opp_base by apply total_epa_base.
  - rewrite neutral_vs_opp_base by apply total_epa_base.
    apply lookup_insert_eq.
  - intros k Hk. subst unadjusted. cbn beta.
    apply neutral_vs_opp_ext. by rewrite lookup_insert_ne.
Qed.

Lemma new_entry_lookup (game_id team opp : string) (is_home : bool) :
  new_entry game_id team opp is_home !! "game_id" = Some (VStr game_id) ∧
  new_entry game_id team opp is_home !! "team" = Some (VStr team) ∧
  new_entry game_id team opp is_home !! "opp" = Some (VStr opp) ∧
  new_entry game_id team opp is_home !! "is_home" = Some (VBool is_home).
Proof. unfold new_entry. repeat split; by simplify_map_eq. Qed.

Lemma meta_cols_apart :
  Forall (λ k, (k ∉ base_feature_cols) ∧
               Forall (λ c, vs_opp c ≠ k) base_feature_cols) meta_cols.
Proof. apply (bool_decide_unpack _). vm_compute. exact I. Qed.

(** The identifying cells of a row are those written when the entry is
    created. *)
Lemma make_entry_meta
    (team_baselines : gmap string (string → Q)) (games_recent : list Row)
    (game_id team opp : string) (is_home : bool)
    (entry : gmap string value) (k : string) :
  make_entry team_baselines games_recent game_id team opp is_home = Some entry →
  k ∈ meta_cols →
  entry !! k = new_entry game_id team opp is_home !! k.
Proof.
  intros Hentry Hk.
  pose proof meta_cols_apart as Hapart. rewrite Forall_forall in Hapart.
  destruct (Hapart k Hk) as [Hbase Hvs]. rewrite Forall_forall in Hvs.
  destruct is_home.
  - destruct (make_entry_home team_baselines games_recent game_id team opp)
      as (v & _ & Heq).
    rewrite Hentry in Heq. injection Heq as ->.
    rewrite neutral_vs_opp_other by done.
    rewrite lookup_insert_ne by (intros <-; apply Hbase, total_epa_base).
    by apply base_feature_assignment_other.
  - rewrite make_entry_away in Hentry. injection Hentry as <-.
    rewrite neutral_vs_opp_other by done.
    by apply base_feature_assignment_other.
Qed.

(** Every row of the prediction frame is the entry built for one side of
    a scheduled game, with the predicted score added. *)
Lemma make_prediction_df_row
    (team_baselines : gmap string (string → Q)) (games_recent : list Row)
    (model : list Q → Q) (team_common_scores : gmap string Q)
    (schedule : list ScheduleRow) (blend_common add_points : Q)
    (df_pred : list (gmap string value)) (i : nat) (row : gmap string value) :
  make_prediction_df team_baselines games_recent model team_common_scores
    schedule blend_common add_points = Some df_pred →
  df_pred !! i = Some row →
  ∃ game_id team opp is_home entry p,
    (schedule ≫= sides) !! i = Some (game_id, team, opp, is_home) ∧
    make_entry team_baselines games_recent game_id team opp is_home = Some entry ∧
    row = <["predicted_score" := VNum p]> entry.
Proof.
  unfold make_prediction_df. intros Hdf Hrow.
  destruct (mapM _ (schedule ≫= sides)) as [preds|] eqn:Hpreds; [|done].
  cbn in Hdf. destruct preds as [|entry0 preds]; [done|].
  apply mapM_Some in Hdf. apply mapM_Some in Hpreds.
  destruct (Forall2_lookup_r _ _ _ _ _ Hdf Hrow) as (entry & Hentry & Hpred).
  destruct (Forall2_lookup_r _ _ _ _ _ Hpreds Hentry)
    as ([[[game_id team] opp] is_home] & Hside & Hmake).
  unfold predict_row in Hpred.
  destruct (mapM (num_at entry) feature_cols) as [features|]; [|done].
  cbn in Hpred. destruct (str_at entry "team") as [t|]; [|done].
  cbn in Hpred. injection Hpred as <-.
  by eexists game_id, team, opp, is_home, entry, _.
Qed.

Lemma predicted_score_apart :
  ("predicted_score"%string ∉ meta_cols) ∧
  "predicted_score"%string ∉ feature_cols.
Proof. apply (bool_decide_unpack _). vm_compute. exact I. Qed.

(** C4 (as the code has it): in the row of a team that has a baseline,
    every base column holds the team's baseline minus the opponent's
    baseline (minus nothing when the opponent has none), the home side's
    [total_epa] being raised by the home-field constant afterwards; every
    vs-opponent column holds zero. *)
Theorem baseline_row_subtracts_opponent_baseline
    (team_baselines : gmap string (string → Q)) (games_recent : list Row)
    (model : list Q → Q) (team_common_scores : gmap string Q)
    (schedule : list ScheduleRow) (blend_common add_points : Q)
    (df_pred : list (gmap string value)) (i : nat) (row : gmap string value)
    (T O : string) (is_home : bool) (team_line : string → Q) (c : string) :
  make_prediction_df team_baselines games_recent model team_common_scores
    schedule blend_common add_points = Some df_pred →
  df_pred !! i = Some row →
  row !! "team" = Some (VStr T) →
  row !! "opp" = Some (VStr O) →
  row !! "is_home" = Some (VBool is_home) →
  team_baselines !! T = Some team_line →
  c ∈ base_feature_cols →
  let before_home_field :=
    team_line c - match team_baselines !! O with
                  | Some opp_line => opp_line c
                  | None => 0
                  end in
  row !! c = Some (VNum (if bool_decide (is_home = true ∧ c = "total_epa"%string)
                         then before_home_field + HOME_FIELD_ADV
                         else before_home_field)) ∧
  row !! vs_opp c = Some (VNum 0).
Proof.
  intros Hdf Hrow Hteam Hopp Hhome Hline Hc before.
  destruct (make_prediction_df_row _ _ _ _ _ _ _ _ _ _ Hdf Hrow)
    as (game_id & T' & O' & h' & entry & p & _ & Hentry & ->).
  destruct predicted_score_apart as [Hmeta Hfeat].
  assert (Hget : ∀ k, k ∈ meta_cols →
            <["predicted_score" := VNum p]> entry !! k =
            new_entry game_id T' O' h' !! k).
  { intros k Hk. rewrite lookup_insert_ne by (by intros <-).
    by eapply make_entry_meta. }
  destruct (new_entry_lookup game_id T' O' h') as (_ & Ht & Ho & Hh).
  rewrite Hget, Ht in Hteam by (apply (bool_decide_unpack _); by vm_compute).
  rewrite Hget, Ho in Hopp by (apply (bool_decide_unpack _); by vm_compute).
  rewrite Hget, Hh in Hhome by (apply (bool_decide_unpack _); by vm_compute).
  injection Hteam as ->. injection Hopp as ->. injection Hhome as ->.
  assert (Hcf : c ∈ feature_cols) by (apply elem_of_app; by left).
  assert (Hvf : vs_opp c ∈ feature_cols).
  { apply elem_of_app. right. by apply list_elem_of_fmap_2. }
  rewrite (lookup_insert_ne _ _ c) by (intros Heq; apply Hfeat; by rewrite Heq).
  rewrite (lookup_insert_ne _ _ (vs_opp c))
    by (intros Heq; apply Hfeat; by rewrite Heq).
  pose proof (base_feature_assignment_present team_baselines games_recent T O
                (new_entry game_id T O is_home) team_line c Hline Hc) as Hbase.
  destruct is_home.
  - destruct (make_entry_home team_baselines games_recent game_id T O)
      as (v & Hv & Heq).
    rewrite Hentry in Heq. injection Heq as ->. split.
    + rewrite neutral_vs_opp_base by done.
      destruct (decide (c = "total_epa"%string)) as [->|Hne].
      * rewrite lookup_insert_eq, bool_decide_true by done.
        rewrite Hbase in Hv. by injection Hv as <-.
      * rewrite lookup_insert_ne by done.
        rewrite bool_decide_false by (by intros [_ ?]). exact Hbase.
    + by apply neutral_vs_opp_zero.
  - rewrite make_entry_away in Hentry. injection Hentry as <-. split.
    + rewrite neutral_vs_opp_base by done.
      rewrite bool_decide_false by (by intros [? _]). exact Hbase.
    + by apply neutral_vs_opp_zero.
Qed.

(** The prediction frame is produced for every non-empty schedule, with
    two rows per scheduled game. *)
Lemma make_prediction_df_total
    (team_baselines : gmap string (string → Q)) (games_recent : list Row)
    (model : list Q → Q) (team_common_scores : gmap string Q)
    (schedule : list ScheduleRow) (blend_common add_points : Q) :
  schedule ≠ [] →
  ∃ df_pred,
    make_prediction_df team_baselines games_recent model team_common_scores
      schedule blend_common add_points = Some df_pred ∧
    length df_pred = (2 * length schedule)%nat.
Proof.
  intros Hschedule. unfold make_prediction_df.
  destruct (mapM (λ '(game_id, team, opp, is_home),
              make_entry team_baselines games_recent game_id team opp is_home)
              (schedule ≫= sides)) as [preds|] eqn:Hpreds.
  - pose proof Hpreds as Hall. apply mapM_Some in Hall.
    assert (Hlen : length preds = (2 * length schedule)%nat).
    { rewrite <- (Forall2_length _ _ _ Hall).
      clear. induction schedule as [|g l IH]; [done|]. cbn. rewrite IH. lia. }
    cbn.
    destruct preds as [|entry0 preds0] eqn:Epreds.
    { destruct schedule; [done | cbn in Hlen; lia]. }
    rewrite <- Epreds in *. clear Epreds entry0 preds0.
    destruct (mapM (predict_row model team_common_scores blend_common add_points) preds)
      as [df|] eqn:Hdf.
    + exists df. split; [done|]. apply mapM_Some in Hdf.
      by rewrite <- (Forall2_length _ _ _ Hdf).
    + exfalso. apply mapM_None in Hdf.
      apply Exists_exists in Hdf as (entry & Hin & Hnone).
      apply list_elem_of_lookup in Hin as [i Hi].
      destruct (Forall2_lookup_r _ _ _ _ _ Hall Hi)
        as ([[[game_id team] opp] is_home] & _ & Hmake).
      unfold predict_row in Hnone.
      assert (Hfeat : is_Some (mapM (num_at entry) feature_cols)).
      { apply mapM_is_Some, Forall_forall. intros c Hc. unfold compose, num_at.
        apply elem_of_app in Hc as [Hc|Hc].
        - destruct is_home.
          + destruct (make_entry_home team_baselines games_recent game_id team opp)
              as (v & Hv & Heq).
            rewrite Hmake in Heq. injection Heq as ->.
            rewrite neutral_vs_opp_base by done.
            destruct (decide (c = "total_epa"%string)) as [->|Hne].
            * by rewrite lookup_insert_eq.
            * rewrite lookup_insert_ne by done.
              destruct (base_feature_assignment_numeric team_baselines games_recent
                          team opp (new_entry game_id team opp true) c Hc) as [w ->].
              done.
          + rewrite make_entry_away in Hmake. injection Hmake as <-.
            rewrite neutral_vs_opp_base by done.
            destruct (base_feature_assignment_numeric team_baselines games_recent
                        team opp (new_entry game_id team opp false) c Hc) as [w ->].
            done.
        - apply list_elem_of_fmap in Hc as (c' & -> & Hc').
          assert (H0 : entry !! vs_opp c' = Some (VNum 0)); [|by rewrite H0].
          destruct is_home.
          + destruct (make_entry_home team_baselines games_recent game_id team opp)
              as (v & Hv & Heq).
            rewrite Hmake in Heq. injection Heq as ->.
            by apply neutral_vs_opp_zero.
          + rewrite make_entry_away in Hmake. injection Hmake as <-.
            by apply neutral_vs_opp_zero. }
      destruct Hfeat as [features Hfeat]. rewrite Hfeat in Hnone. cbn in Hnone.
      assert (Hteam : str_at entry "team" = Some team).
      { unfold str_at.
        rewrite (make_entry_meta _ _ _ _ _ _ _ "team" Hmake)
          by (apply (bool_decide_unpack _); by vm_compute).
        by destruct (new_entry_lookup game_id team opp is_home) as (_ & -> & _). }
      rewrite Hteam in Hnone. done.
  - exfalso. apply mapM_None in Hpreds.
    apply Exists_exists in Hpreds as ([[[game_id team] opp] is_home] & _ & Hnone).
    destruct is_home.
    + destruct (make_entry_home team_baselines games_recent game_id team opp)
        as (v & _ & Heq). congruence.
    + by rewrite make_entry_away in Hnone.
Qed.

Lemma baseline_row_subtracts_opponent_baseline_witness :
  sample_away_row !! "plays" = Some (VNum (-3)) ∧
  sample_away_row !! vs_opp "plays" = Some (VNum 0).
Proof.
  destruct (make_prediction_df_total sample_baselines [] sample_model ∅
              sample_schedule default_blend_common default_add_points
              ltac:(discriminate))
    as (df & Hdf & Hlen).
  assert (Hsample : sample_df_pred = df) by (unfold sample_df_pred; by rewrite Hdf).
  rewrite <- Hsample in Hdf, Hlen. clear df Hsample.
  assert (Hrow : sample_df_pred !! 1%nat = Some sample_away_row).
  { unfold sample_away_row.
    destruct (lookup_lt_is_Some_2 sample_df_pred 1) as [row Hrow]; [|by rewrite Hrow].
    rewrite Hlen. cbn. lia. }
  assert (Hteam : sample_away_row !! "team" = Some (VStr "BB"))
    by (vm_compute; reflexivity).
  assert (Hopp : sample_away_row !! "opp" = Some (VStr "AA"))
    by (vm_compute; reflexivity).
  assert (Hhome : sample_away_row !! "is_home" = Some (VBool false))
    by (vm_compute; reflexivity).
  assert (Hline : sample_baselines !! "BB" = Some (λ _, 2))
    by (vm_compute; reflexivity).
  assert (Hc : "plays"%string ∈ base_feature_cols) by in_list.
  pose proof (baseline_row_subtracts_opponent_baseline sample_baselines []
                sample_model ∅ sample_schedule default_blend_common
                default_add_points sample_df_pred 1 sample_away_row "BB" "AA"
                false (λ _, 2) "plays" Hdf Hrow Hteam Hopp Hhome Hline Hc) as H.
  vm_compute in H. vm_compute. exact H.
Defined.

(** C4 as worded fails: BB has baseline 2 and its opponent AA has
    baseline 5 in every column; the [plays] cell of BB's row, the away
    side, holds 2 - 5 = -3, not BB's baseline 2. *)
Lemma base_column_is_not_own_baseline :
  (λ line : string → Q, line "plays"%string) <$> sample_baselines !! "BB"%string
    = Some 2 ∧
  (make_prediction_df sample_baselines [] sample_model ∅ sample_schedule
     default_blend_common default_add_points
     ≫= λ df_pred, df_pred !! 1%nat ≫= λ row, row !! "team"%string)
    = Some (VStr "BB") ∧
  (make_prediction_df sample_baselines [] sample_model ∅ sample_schedule
     default_blend_common default_add_points
     ≫= λ df_pred, df_pred !! 1%nat ≫= λ row, row !! "plays"%string)
    = Some (VNum (-3)) ∧
  ¬ -3 == 2.
Proof.
  split; [reflexivity|]. split; [by vm_compute|]. split; [by vm_compute|].
  intros H. vm_compute in H. discriminate H.
Qed.

Example home_row_total_epa :
  (make_prediction_df sample_baselines [] sample_model ∅ sample_schedule
     default_blend_common default_add_points
     ≫= λ df_pred, df_pred !! 0%nat ≫= λ row, row !! "total_epa"%string)
    = Some (VNum (11 # 2)).
Proof. by vm_compute. Qed.

(** ** Game-level predictions *)

Lemma final_preds_row (pred_input : list PredRow) (g : GamePrediction) :
  g ∈ final_preds pred_input →
  ∃ h a,
    h ∈ pred_input ∧ a ∈ pred_input ∧
    pred_is_home h = true ∧ pred_is_home a = false ∧
    pred_game_id a = pred_game_id h ∧
    g = mkGamePrediction (pred_game_id h)
          (pred_team h) (predicted_score h) (pred_team a) (predicted_score a)
          (if Qlt_bool (predicted_score a) (predicted_score h)
           then pred_team h else pred_team a).
Proof.
  unfold final_preds. intros Hg.
  apply list_elem_of_bind in Hg as (h & Hg & Hh).
  apply list_elem_of_fmap in Hg as (a & -> & Ha).
  apply list_elem_of_filter in Hh as [Hhome Hh].
  apply list_elem_of_filter in Ha as [Hid Ha].
  apply list_elem_of_filter in Ha as [Haway Ha].
  exists h, a. repeat split; try done.
  by destruct (pred_is_home a).
Qed.

(** C10: the home team is the projected winner exactly when its predicted
    score is strictly greater; on equal scores it is the away team. *)
Theorem tie_projects_away_team (pred_input : list PredRow) (g : GamePrediction) :
  g ∈ final_preds pred_input →
  (home_pred_score g == away_pred_score g → projected_winner g = gp_away_team g) ∧
  (away_pred_score g < home_pred_score g → projected_winner g = gp_home_team g) ∧
  (¬ away_pred_score g < home_pred_score g → projected_winner g = gp_away_team g) ∧
  (gp_home_team g ≠ gp_away_team g →
   (projected_winner g = gp_home_team g ↔ away_pred_score g < home_pred_score g)).
Proof.
  intros Hg. apply final_preds_row in Hg as (h & a & _ & _ & _ & _ & _ & ->).
  cbn [home_pred_score away_pred_score projected_winner gp_home_team gp_away_team].
  destruct (Qlt_bool (predicted_score a) (predicted_score h)) eqn:Hlt.
  - apply Qlt_bool_iff in Hlt. split; [|split; [|split]].
    + intros Heq. exfalso. lra.
    + reflexivity.
    + intros Hn. by destruct Hn.
    + intros _. split; [by intros _ | reflexivity].
  - assert (Hn : ¬ predicted_score a < predicted_score h).
    { intros H. apply Qlt_bool_iff in H. congruence. }
    split; [|split; [|split]].
    + reflexivity.
    + intros H. by destruct Hn.
    + reflexivity.
    + intros Hne. split; [intros Heq; by destruct Hne | intros H; by destruct Hn].
Qed.

Lemma tie_projects_away_team_witness :
  projected_winner (mkGamePrediction "2025_01_BB_AA" "AA" 23 "BB" 23 "BB") = "BB"%string.
Proof.
  destruct (tie_projects_away_team sample_tied_preds
              (mkGamePrediction "2025_01_BB_AA" "AA" 23 "BB" 23 "BB"))
    as [Htie _].
  - at_index 0%nat.
  - apply Htie. reflexivity.
Defined.

Example final_preds_tie :
  final_preds sample_tied_preds =
    [ mkGamePrediction "2025_01_BB_AA" "AA" 23 "BB" 23 "BB" ].
Proof. reflexivity. Qed.

Example final_preds_home_ahead :
  projected_winner <$>
    final_preds [ mkPredRow "g" "AA" true 27; mkPredRow "g" "BB" false 23 ]
  = [ "AA"%string ].
Proof. reflexivity. Qed.

(** ** Rolling team statistics *)

Lemma mean_singleton (x : Q) : mean [x] == x.
Proof. unfold mean, qsum. cbn. field. Qed.

Lemma rolling_window_fmap {A B} (f : A → B) (window i : nat) (xs : list A) :
  rolling_window window i (f <$> xs) = f <$> rolling_window window i xs.
Proof. unfold rolling_window. by rewrite fmap_drop, fmap_take. Qed.

(** The window is the tail of the column read so far, as long as the
    window size allows. *)
Lemma rolling_window_recent {A} (window i : nat) (xs : list A) :
  (i < length xs)%nat →
  take (S i) xs = take (S i - window) xs ++ rolling_window window i xs ∧
  length (rolling_window window i xs) = min (S i) window.
Proof.
  intros Hi. unfold rolling_window. split.
  - rewrite <- (take_drop (S i - window) (take (S i) xs)) at 1.
    rewrite take_take. f_equal. f_equal. lia.
  - rewrite length_drop, length_take. lia.
Qed.

Lemma rolling_window_first {A} (window : nat) (xs : list A) (x : A) :
  (0 < window)%nat → xs !! 0%nat = Some x → rolling_window window 0 xs = [x].
Proof.
  intros Hw Hx. unfold rolling_window.
  replace (1 - window)%nat with 0%nat by lia.
  destruct xs as [|y xs]; [done|]. cbn in *. by injection Hx as ->.
Qed.

Lemma rolling_window_one {A} (i : nat) (xs : list A) (x : A) :
  xs !! i = Some x → rolling_window 1 i xs = [x].
Proof.
  intros Hx. unfold rolling_window.
  replace (S i - 1)%nat with i by lia.
  revert i Hx. induction xs as [|y xs IH]; intros [|i] Hx; try done.
  - cbn in *. injection Hx as ->. by rewrite take_0.
  - cbn in *. by apply IH.
Qed.

Lemma rolling_mean_lookup (window i : nat) (xs : list Q) (x : Q) :
  xs !! i = Some x →
  rolling_mean window xs !! i = Some (mean (rolling_window window i xs)).
Proof. intros Hx. unfold rolling_mean. by rewrite list_lookup_imap, Hx. Qed.

(** A row of the rolled frame keeps the keys and the other columns of
    the row at the same position; each base column holds the mean of the
    window ending at that position. *)
Lemma roll_team_lookup (window i : nat) (team_df : list Row) (r : Row) :
  roll_team window team_df !! i = Some r →
  ∃ raw,
    team_df !! i = Some raw ∧
    game_id r = game_id raw ∧ season r = season raw ∧ week r = week raw ∧
    team r = team raw ∧ opp r = opp raw ∧ score r = score raw ∧
    (∀ c, c ∈ base_feature_cols →
       stats r c = mean (map (λ x, stats x c) (rolling_window window i team_df))) ∧
    (∀ c, c ∉ base_feature_cols → stats r c = stats raw c).
Proof.
  unfold roll_team. rewrite list_lookup_imap. intros Hr.
  destruct (team_df !! i) as [raw|] eqn:Hraw; [|done].
  cbn in Hr. injection Hr as <-. exists raw. repeat split; try done.
  - intros c Hc. cbn. rewrite decide_True by done.
    rewrite (rolling_mean_lookup _ _ _ (stats raw c))
      by (by rewrite list_lookup_fmap, Hraw).
    cbn. by rewrite <- rolling_window_fmap.
  - intros c Hc. cbn. by rewrite decide_False.
Qed.

Lemma roll_team_length (window : nat) (team_df : list Row) :
  length (roll_team window team_df) = length team_df.
Proof. unfold roll_team. apply length_imap. Qed.

Lemma roll_team_same_team (window : nat) (t : string) (team_df : list Row) :
  Forall (λ r, team r = t) team_df →
  Forall (λ r, team r = t) (roll_team window team_df).
Proof.
  intros Hall. apply Forall_lookup. intros i r Hr.
  apply roll_team_lookup in Hr as (raw & Hraw & _ & _ & _ & -> & _).
  by eapply (Forall_lookup_1 _ _ _ _ Hall).
Qed.

Lemma elem_of_unique_from `{EqDecision A} (seen l : list A) (x : A) :
  x ∈ unique_from seen l ↔ x ∈ l ∧ x ∉ seen.
Proof.
  revert seen. induction l as [|y l IH]; intros seen; cbn.
  - split; [by intros H%not_elem_of_nil | by intros [H%not_elem_of_nil _]].
  - destruct (decide (y ∈ seen)) as [Hy|Hy].
    + rewrite IH, elem_of_cons. split; [tauto|].
      intros [[->|H] Hn]; [done | tauto].
    + rewrite !elem_of_cons, IH, not_elem_of_cons. split.
      * intros [->|(H & Hne & Hn)]; tauto.
      * intros [[->|H] Hn]; [tauto|].
        destruct (decide (x = y)) as [->|Hne]; tauto.
Qed.

Lemma NoDup_unique_from `{EqDecision A} (seen l : list A) : NoDup (unique_from seen l).
Proof.
  revert seen. induction l as [|y l IH]; intros seen; cbn; [constructor|].
  destruct (decide (y ∈ seen)); [apply IH|].
  constructor; [|apply IH].
  rewrite elem_of_unique_from, not_elem_of_cons. tauto.
Qed.

Lemma elem_of_unique `{EqDecision A} (l : list A) (x : A) : x ∈ unique l ↔ x ∈ l.
Proof.
  unfold unique. rewrite elem_of_unique_from. split; [tauto|].
  intros H. split; [done | apply not_elem_of_nil].
Qed.

Lemma filter_none {A} (P : A → Prop) `{!∀ x, Decision (P x)} (l : list A) :
  Forall (λ x, ¬ P x) l → filter P l = [].
Proof.
  induction 1 as [|x l Hx _ IH]; [done|]. by rewrite filter_cons_False.
Qed.

(** Reading one team's rows out of the concatenation of per-team frames
    gives that team's frame. *)
Lemma filter_team_bind (g : string → list Row) (teams : list string) (t : string) :
  NoDup teams →
  (∀ t', Forall (λ r, team r = t') (g t')) →
  filter (λ r, team r = t) (teams ≫= g) = if decide (t ∈ teams) then g t else [].
Proof.
  intros Hnd Hg. induction Hnd as [|t' teams Hnotin Hnd IH]; [done|].
  cbn. rewrite filter_app, IH.
  destruct (decide (t' = t)) as [->|Hne].
  - rewrite filter_all by apply Hg.
    rewrite decide_False by done. rewrite app_nil_r.
    by rewrite decide_True by apply list_elem_of_here.
  - rewrite filter_none.
    + cbn. destruct (decide (t ∈ teams)) as [Hin|Hin].
      * by rewrite decide_True by (by apply list_elem_of_further).
      * rewrite decide_False; [done|].
        rewrite elem_of_cons. intros [->|?]; done.
    + eapply Forall_impl; [apply Hg|]. cbn. intros r -> ->. done.
Qed.

Lemma filter_team_forall (t : string) (df : list Row) :
  Forall (λ r, team r = t) (filter (λ r, team r = t) df).
Proof. apply Forall_forall. intros r Hr. by apply list_elem_of_filter in Hr as [? _]. Qed.

(** The rows of team [t] in the result are the rolled frame of the rows
    of [t] in the sorted input. *)
Lemma compute_rolling_team_stats_team
    (df out : list Row) (n_seasons : nat) (t : string) :
  compute_rolling_team_stats df n_seasons = Some out →
  filter (λ r, team r = t) out =
    roll_team (n_seasons * 17) (filter (λ r, team r = t) (sort_values row_leb df)).
Proof.
  unfold compute_rolling_team_stats. intros Hout.
  destruct (decide (unique _ = [])); [done|].
  destruct (decide _); [done|]. injection Hout as <-.
  rewrite (filter_team_bind
             (λ t', roll_team (n_seasons * 17)
                      (filter (λ r, team r = t') (sort_values row_leb df)))).
  - destruct (decide (t ∈ unique _)) as [Hin|Hnotin]; [done|].
    rewrite filter_none; [done|].
    apply Forall_forall. intros r Hr Ht. apply Hnotin.
    apply elem_of_unique. rewrite <- Ht. by apply list_elem_of_fmap_2.
  - apply NoDup_unique_from.
  - intros t'. apply roll_team_same_team, filter_team_forall.
Qed.

Lemma insert_sorted_Permutation {A} (leb : A → A → bool) (x : A) (l : list A) :
  insert_sorted leb x l ≡ₚ x :: l.
Proof.
  induction l as [|y l IH]; cbn; [done|].
  destruct (leb x y); [done|]. rewrite IH. apply Permutation_swap.
Qed.

Lemma sort_values_Permutation {A} (leb : A → A → bool) (l : list A) :
  sort_values leb l ≡ₚ l.
Proof.
  induction l as [|x l IH]; cbn; [done|].
  by rewrite insert_sorted_Permutation, IH.
Qed.

Lemma unique_nonempty `{EqDecision A} (l : list A) : l ≠ [] → unique l ≠ [].
Proof.
  destruct l as [|x l]; [done|]. intros _ Hnil.
  assert (Hx : x ∈ unique (x :: l)) by (apply elem_of_unique, list_elem_of_here).
  rewrite Hnil in Hx. by apply not_elem_of_nil in Hx.
Qed.

(** The frame is produced for every non-empty input and positive number
    of seasons. *)
Lemma compute_rolling_team_stats_total (df : list Row) (n_seasons : nat) :
  df ≠ [] → (0 < n_seasons)%nat →
  ∃ out, compute_rolling_team_stats df n_seasons = Some out.
Proof.
  intros Hdf Hn. unfold compute_rolling_team_stats.
  rewrite decide_False.
  - rewrite decide_False by lia. by eexists.
  - apply unique_nonempty. intros Hnil. apply fmap_nil_inv in Hnil.
    apply Hdf. apply Permutation_nil_r. rewrite <- Hnil.
    symmetry. apply sort_values_Permutation.
Qed.

(** *** The rows of a team are in chronological order *)

Lemma row_leb_same_team (r1 r2 : Row) :
  team r1 = team r2 → (row_leb r1 r2 = true ↔ chrono_le r1 r2).
Proof.
  intros Ht. unfold row_leb, chrono_le. rewrite Ht, String.eqb_refl.
  destruct (Z.eqb_spec (season r1) (season r2)) as [Hs|Hs].
  - rewrite Z.leb_le. lia.
  - rewrite Z.ltb_lt. lia.
Qed.

Lemma row_leb_other_team (r1 r2 : Row) :
  team r1 ≠ team r2 → row_leb r1 r2 = String.leb (team r1) (team r2).
Proof.
  intros Ht. unfold row_leb. by apply String.eqb_neq in Ht as ->.
Qed.

Lemma row_leb_total (r1 r2 : Row) : row_leb r1 r2 = true ∨ row_leb r2 r1 = true.
Proof.
  destruct (decide (team r1 = team r2)) as [Ht|Ht].
  - rewrite !row_leb_same_team by done. unfold chrono_le. lia.
  - rewrite !row_leb_other_team by done. apply String.leb_total.
Qed.

Lemma string_leb_trans (s1 s2 s3 : string) :
  String.leb s1 s2 = true → String.leb s2 s3 = true → String.leb s1 s3 = true.
Proof.
  intros H12 H23. apply Is_true_true.
  apply (@transitivity _ String.le _ s1 s2 s3); by apply Is_true_true.
Qed.

Lemma row_leb_trans (r1 r2 r3 : Row) :
  row_leb r1 r2 = true → row_leb r2 r3 = true → row_leb r1 r3 = true.
Proof.
  intros H12 H23.
  destruct (decide (team r1 = team r2)) as [E12|N12];
    destruct (decide (team r2 = team r3)) as [E23|N23].
  - apply row_leb_same_team in H12; [|done].
    apply row_leb_same_team in H23; [|done].
    apply row_leb_same_team; [congruence|]. unfold chrono_le in *. lia.
  - rewrite row_leb_other_team in H23 |- * by congruence. by rewrite E12.
  - rewrite row_leb_other_team in H12 |- * by congruence. by rewrite <- E23.
  - rewrite row_leb_other_team in H12, H23 by done.
    assert (N13 : team r1 ≠ team r3).
    { intros E13. apply N12. apply String.leb_antisym; [done|]. by rewrite E13. }
    rewrite row_leb_other_team by done. by eapply string_leb_trans.
Qed.

Lemma insert_sorted_StronglySorted (x : Row) (l : list Row) :
  StronglySorted (λ a b, row_leb a b = true) l →
  StronglySorted (λ a b, row_leb a b = true) (insert_sorted row_leb x l).
Proof.
  induction 1 as [|y l Hl IH Hy]; cbn.
  - by repeat constructor.
  - destruct (row_leb x y) eqn:Hxy.
    + constructor; [by constructor|]. constructor; [done|].
      eapply Forall_impl; [exact Hy|]. cbn. intros z Hyz.
      by eapply row_leb_trans.
    + constructor; [done|].
      rewrite (insert_sorted_Permutation row_leb x l).
      constructor; [|done].
      destruct (row_leb_total x y); congruence.
Qed.

Lemma sort_values_StronglySorted (df : list Row) :
  StronglySorted (λ a b, row_leb a b = true) (sort_values row_leb df).
Proof.
  induction df as [|x df IH]; cbn; [constructor|].
  by apply insert_sorted_StronglySorted.
Qed.

Lemma team_games_sorted (df : list Row) (t : string) :
  StronglySorted chrono_le (filter (λ r, team r = t) (sort_values row_leb df)).
Proof.
  pose proof (sort_values_StronglySorted df) as Hs.
  induction Hs as [|x l Hl IH Hx]; [constructor|].
  rewrite filter_cons. destruct (decide (team x = t)) as [Ht|Ht]; [|done].
  constructor; [done|].
  apply Forall_forall. intros y Hy.
  apply list_elem_of_filter in Hy as [Hty Hy].
  rewrite Forall_forall in Hx.
  apply row_leb_same_team; [congruence | by apply Hx].
Qed.

Lemma team_games_permutation (df : list Row) (t : string) :
  filter (λ r, team r = t) (sort_values row_leb df) ≡ₚ filter (λ r, team r = t) df.
Proof.
  induction (sort_values_Permutation row_leb df) as [|x l1 l2 _ IH|x y l|l1 l2 l3 _ IH1 _ IH2].
  - done.
  - rewrite !filter_cons. destruct (decide _); by rewrite IH.
  - rewrite !filter_cons. repeat destruct (decide _); try done. apply Permutation_swap.
  - by rewrite IH1.
Qed.

(** C7: the frame is produced, and for every team the games that the
    rolling mean reads are the team's rows of the input, each once, in
    (season, week) order.  The result holds one row per game of the team,
    in that order: row [i] is game [i] with its keys, opponent and score
    unchanged, and in every base column the mean of the most recent
    [min (i+1) W] raw values up to and including game [i], where
    [W = 17 * n_seasons]; so the first game keeps its raw value.  With a
    window of one row the rolled frame equals the raw frame on every
    statistic. *)
Theorem rolling_is_trailing_mean (df : list Row) (n_seasons : nat) :
  df ≠ [] → (0 < n_seasons)%nat →
  (∃ out,
     compute_rolling_team_stats df n_seasons = Some out ∧
     ∀ t,
       let games := filter (λ x, team x = t) (sort_values row_leb df) in
       StronglySorted chrono_le games ∧
       games ≡ₚ filter (λ x, team x = t) df ∧
       length (filter (λ x, team x = t) out) = length games ∧
       ∀ i raw,
         games !! i = Some raw →
         ∃ r older recent,
           filter (λ x, team x = t) out !! i = Some r ∧
           row_id r = row_id raw ∧
           take (S i) games = older ++ recent ∧
           length recent = min (S i) (n_seasons * 17) ∧
           ∀ c, c ∈ base_feature_cols →
             stats r c = mean (map (λ x, stats x c) recent) ∧
             (i = 0%nat → stats r c == stats raw c)) ∧
  (∀ team_df i raw,
     team_df !! i = Some raw →
     ∃ r, roll_team 1 team_df !! i = Some r ∧ ∀ c, stats r c == stats raw c).
Proof.
  intros Hdf Hn. split.
  - destruct (compute_rolling_team_stats_total df n_seasons Hdf Hn) as [out Hout].
    exists out. split; [done|]. intros t games.
    rewrite (compute_rolling_team_stats_team _ _ _ _ Hout). fold games.
    split; [apply team_games_sorted|].
    split; [apply team_games_permutation|].
    split; [apply roll_team_length|].
    intros i raw Hraw.
    pose proof (lookup_lt_Some _ _ _ Hraw) as Hi.
    destruct (lookup_lt_is_Some_2 (roll_team (n_seasons * 17) games) i) as [r Hr].
    { by rewrite roll_team_length. }
    pose proof Hr as Hlookup.
    apply roll_team_lookup in Hlookup
      as (raw' & Hraw' & Hg & Hs & Hw & Ht & Ho & Hsc & Hbase & _).
    rewrite Hraw in Hraw'. injection Hraw' as <-.
    destruct (rolling_window_recent (n_seasons * 17) i games Hi) as [Htake Hlen].
    exists r, (take (S i - n_seasons * 17) games),
           (rolling_window (n_seasons * 17) i games).
    split; [done|].
    split; [unfold row_id; congruence|].
    split; [done|]. split; [done|].
    intros c Hc. split; [by apply Hbase|].
    intros ->. rewrite (Hbase c Hc).
    rewrite (rolling_window_first _ _ raw) by (done || lia).
    cbn. apply mean_singleton.
  - intros team_df i raw Hraw.
    destruct (lookup_lt_is_Some_2 (roll_team 1 team_df) i) as [r Hr].
    { rewrite roll_team_length. by eapply lookup_lt_Some. }
    exists r. split; [done|]. intros c.
    apply roll_team_lookup in Hr as (raw' & Hraw' & _ & _ & _ & _ & _ & _ & Hbase & Hother).
    rewrite Hraw in Hraw'. injection Hraw' as <-.
    destruct (decide (c ∈ base_feature_cols)) as [Hc|Hc].
    + rewrite (Hbase c Hc), (rolling_window_one _ _ raw) by done.
      cbn. apply mean_singleton.
    + by rewrite (Hother c Hc).
Qed.

Lemma rolling_is_trailing_mean_witness :
  ∃ out,
    compute_rolling_team_stats sample_games 1 = Some out ∧
    ∃ r older recent,
      filter (λ x, team x = "AA"%string) out !! 2%nat = Some r ∧
      row_id r = row_id (sample_row "AA" "BB" 2021 1 60) ∧
      take 3 (filter (λ x, team x = "AA"%string) (sort_values row_leb sample_games))
        = older ++ recent ∧
      length recent = min 3 (1 * 17) ∧
      ∀ c, c ∈ base_feature_cols →
        stats r c = mean (map (λ x, stats x c) recent) ∧
        (2%nat = 0%nat → stats r c == stats (sample_row "AA" "BB" 2021 1 60) c).
Proof.
  destruct (rolling_is_trailing_mean sample_games 1
              ltac:(discriminate) ltac:(lia)) as [(out & Hout & Hteams) _].
  exists out. split; [exact Hout|].
  destruct (Hteams "AA"%string) as (_ & _ & _ & Hrows).
  apply (Hrows 2%nat (sample_row "AA" "BB" 2021 1 60)). reflexivity.
Defined.

(** X10: the games of a team, as the rolling mean reads them, are the
    team's rows of the input, each once, in (season, week) order. *)
Lemma team_games_chronological (df : list Row) (t : string) :
  StronglySorted chrono_le (filter (λ r, team r = t) (sort_values row_leb df)) ∧
  filter (λ r, team r = t) (sort_values row_leb df) ≡ₚ filter (λ r, team r = t) df.
Proof. split; [apply team_games_sorted | apply team_games_permutation]. Qed.

Example compute_rolling_team_stats_sample :
  map (λ r, (team r, season r, week r, Qred (stats r "plays")))
    <$> compute_rolling_team_stats sample_games 1
  = Some [ ("AA"%string, 2020%Z, 1%Z, 10); ("AA"%string, 2020%Z, 2%Z, 15);
           ("AA"%string, 2021%Z, 1%Z, 30); ("BB"%string, 2020%Z, 1%Z, 4) ].
Proof. by vm_compute. Qed.

Example compute_rolling_team_stats_empty :
  compute_rolling_team_stats [] 2 = None ∧
  compute_rolling_team_stats sample_games 0 = None.
Proof. split; by vm_compute. Qed.

Example rolling_mean_window_2 :
  Qred <$> rolling_mean 2 [10; 20; 60] = [10; 15; 40].
Proof. by vm_compute. Qed.

Example rolling_mean_window_1 :
  Qred <$> rolling_mean 1 [10; 20; 60] = [10; 20; 60].
Proof. by vm_compute. Qed.

(** ** The game-level frame *)

Lemma aggregate_key (k : group_key) (group : list Play.t) :
  game_key (aggregate k group) = k.
Proof. by destruct k as [[[[g s] w] pos] def]. Qed.

Lemma filter_fmap_comm {A B} (f : A → B) (P : B → Prop) `{!∀ y, Decision (P y)}
    (l : list A) :
  filter P (f <$> l) = f <$> filter (λ x, P (f x)) l.
Proof.
  induction l as [|x l IH]; [done|].
  rewrite fmap_cons, !filter_cons.
  destruct (decide (P (f x))); [rewrite fmap_cons|]; by rewrite IH.
Qed.

Lemma group_keys_spec (pbp : list Play.t) :
  NoDup (sort_values key_leb
           (unique (omap play_key (filter (λ p, is_Some (play_key p)) pbp)))) ∧
  ∀ k, k ∈ sort_values key_leb
             (unique (omap play_key (filter (λ p, is_Some (play_key p)) pbp))) ↔
       ∃ p, p ∈ pbp ∧ play_key p = Some k.
Proof.
  split.
  - rewrite sort_values_Permutation. apply NoDup_unique_from.
  - intros k. rewrite sort_values_Permutation, elem_of_unique, list_elem_of_omap.
    split.
    + intros (p & Hp & Hk). exists p. split; [|done].
      by apply list_elem_of_filter in Hp as [_ Hp].
    + intros (p & Hp & Hk). exists p. split; [|done].
      apply list_elem_of_filter. split; [by rewrite Hk | done].
Qed.

(** X28: the frame has one row per distinct key (game, season, week,
    offense, defense): no two rows share a key, and a key has a row
    exactly when some play with both teams has it. *)
Lemma build_game_level_df_keys (pbp : list Play.t) :
  NoDup (game_key <$> build_game_level_df pbp) ∧
  ∀ k, k ∈ (game_key <$> build_game_level_df pbp) ↔
       ∃ p, p ∈ pbp ∧ play_key p = Some k.
Proof.
  unfold build_game_level_df.
  set (df := filter (λ p, is_Some (play_key p)) pbp).
  assert (Hkeys : ∀ keys : list group_key,
            game_key <$> ((λ k, aggregate k (filter (λ p, play_key p = Some k) df))
                          <$> keys) = keys).
  { induction keys as [|k keys IH]; [done|].
    by rewrite !fmap_cons, aggregate_key, IH. }
  rewrite Hkeys. apply group_keys_spec.
Qed.

Lemma play_key_Some (p : Play.t) (k : group_key) :
  play_key p = Some k ↔
  ∃ pos def, Play.posteam p = Some pos ∧ Play.defteam p = Some def ∧
             k = (Play.game_id p, Play.season p, Play.week p, pos, def).
Proof.
  unfold play_key. split.
  - destruct (Play.posteam p) as [pos|]; [|done].
    destruct (Play.defteam p) as [def|]; [|done].
    intros [= <-]. by exists pos, def.
  - intros (pos & def & -> & -> & ->). done.
Qed.

(** C9 (as the code has it): when the plays of a game that have both
    teams belong to one season and week and to the two pairings, A on
    offense against B and B on offense against A, and both pairings
    occur, the frame holds exactly two rows for the game, each the mirror
    of the other. *)
Theorem two_mirror_rows_when_both_sides_play
    (pbp : list Play.t) (gid : string) (s w : Z) (A B : string) :
  A ≠ B →
  (∀ p pos def,
     p ∈ pbp → Play.game_id p = gid →
     Play.posteam p = Some pos → Play.defteam p = Some def →
     Play.season p = s ∧ Play.week p = w ∧
     (pos = A ∧ def = B ∨ pos = B ∧ def = A)) →
  (∃ p, p ∈ pbp ∧ Play.game_id p = gid ∧
        Play.posteam p = Some A ∧ Play.defteam p = Some B) →
  (∃ p, p ∈ pbp ∧ Play.game_id p = gid ∧
        Play.posteam p = Some B ∧ Play.defteam p = Some A) →
  ∃ r1 r2,
    filter (λ r, Game.game_id r = gid) (build_game_level_df pbp) ≡ₚ [r1; r2] ∧
    Game.posteam r1 = A ∧ Game.defteam r1 = B ∧
    Game.posteam r1 = Game.defteam r2 ∧ Game.defteam r1 = Game.posteam r2.
Proof.
  intros HAB Hall (pa & Hpa & Hga & Hpos_a & Hdef_a) (pb & Hpb & Hgb & Hpos_b & Hdef_b).
  destruct (group_keys_spec pbp) as [Hnd Hkeys].
  unfold build_game_level_df.
  set (df := filter (λ p, is_Some (play_key p)) pbp) in *.
  set (keys := sort_values key_leb (unique (omap play_key df))) in *.
  set (f := λ k, aggregate k (filter (λ p, play_key p = Some k) df)).
  rewrite (filter_fmap_comm f).
  exists (f (gid, s, w, A, B)), (f (gid, s, w, B, A)).
  split; [|by repeat split].
  change [f (gid, s, w, A, B); f (gid, s, w, B, A)]
    with (f <$> [(gid, s, w, A, B); (gid, s, w, B, A)]).
  apply fmap_Permutation.
  apply NoDup_Permutation.
  - by apply NoDup_filter.
  - apply NoDup_cons. split; [|apply NoDup_singleton].
    rewrite list_elem_of_singleton. intros [= ->]. done.
  - intros k. rewrite list_elem_of_filter, Hkeys.
    rewrite elem_of_cons, list_elem_of_singleton. split.
    + intros [Hgid (p & Hp & Hk)].
      apply play_key_Some in Hk as (pos & def & Hpos & Hdef & ->).
      subst f. cbn in Hgid.
      destruct (Hall p pos def Hp Hgid Hpos Hdef) as (<- & <- & [[-> ->]|[-> ->]]);
        rewrite Hgid; auto.
    + destruct (Hall pa A B Hpa Hga Hpos_a Hdef_a) as (Hsa & Hwa & _).
      destruct (Hall pb B A Hpb Hgb Hpos_b Hdef_b) as (Hsb & Hwb & _).
      intros [->| ->]; (split; [done|]).
      * exists pa. split; [done|]. apply play_key_Some. exists A, B.
        by rewrite Hga, Hsa, Hwa.
      * exists pb. split; [done|]. apply play_key_Some. exists B, A.
        by rewrite Hgb, Hsb, Hwb.
Qed.

Lemma two_mirror_rows_when_both_sides_play_witness :
  ∃ r1 r2,
    filter (λ r, Game.game_id r = "2023_01_AA_BB"%string)
      (build_game_level_df sample_pbp) ≡ₚ [r1; r2] ∧
    Game.posteam r1 = "AA"%string ∧ Game.defteam r1 = "BB"%string ∧
    Game.posteam r1 = Game.defteam r2 ∧ Game.defteam r1 = Game.posteam r2.
Proof.
  apply (two_mirror_rows_when_both_sides_play sample_pbp "2023_01_AA_BB"
           2023 1 "AA" "BB").
  - discriminate.
  - intros p pos def Hp.
    repeat (apply elem_of_cons in Hp as [->|Hp]);
      [..|by apply not_elem_of_nil in Hp];
      cbn; intros _ Hpos Hdef; try discriminate;
      injection Hpos as <-; injection Hdef as <-; auto.
  - exists (sample_play "2023_01_AA_BB" (Some "AA"%string) (Some "BB"%string) 1).
    split; [at_index 0%nat | done].
  - exists (sample_play "2023_01_AA_BB" (Some "BB"%string) (Some "AA"%string) 2).
    split; [at_index 1%nat | done].
Defined.

(** C9 as worded fails: in a collection where only AA has plays on
    offense in the game, the game is in the frame with a single row. *)
Lemma one_sided_game_has_one_row :
  "2023_01_AA_BB"%string ∈ (Game.game_id <$> build_game_level_df sample_pbp_one_sided) ∧
  length (filter (λ r, Game.game_id r = "2023_01_AA_BB"%string)
            (build_game_level_df sample_pbp_one_sided)) = 1%nat.
Proof. split; [in_list | by vm_compute]. Qed.

Example build_game_level_df_sample :
  (λ r, (Game.posteam r, Game.defteam r, Game.plays r, Qred (Game.total_epa r)))
    <$> build_game_level_df sample_pbp
  = [ ("AA"%string, "BB"%string, 2%Z, 4); ("BB"%string, "AA"%string, 1%Z, 2) ].
Proof. by vm_compute. Qed.

(** * Further properties of the pipeline *)

(** ** The snap step and the blend *)

Lemma Qfloor_unique (x : Q) (z : Z) :
  inject_Z z <= x → x < inject_Z z + 1 → Qfloor x = z.
Proof.
  intros Hlo Hhi.
  pose proof (Qfloor_le x) as Hfl. pose proof (Qlt_floor x) as Hfh.
  rewrite inject_Z_plus in Hfh. change (inject_Z 1) with 1 in Hfh.
  assert (H1 : inject_Z z < inject_Z (Qfloor x) + 1) by lra.
  assert (H2 : inject_Z (Qfloor x) < inject_Z z + 1) by lra.
  change 1 with (inject_Z 1) in H1, H2.
  rewrite <- inject_Z_plus in H1, H2.
  rewrite <- Zlt_Qlt in H1, H2. lia.
Qed.

Lemma snap_cases (s : Q) :
  let q := inject_Z (Qfloor (s / 10)) in
  let r := s - 10 * q in
  0 <= r ∧ r < 10 ∧
  (r <= 5 ∧ snap s = 3 + 10 * q ∨ 5 < r ∧ snap s = 7 + 10 * q).
Proof.
  intros q r. destruct (floor_remainder_range s) as [H0 H10].
  split; [done|]. split; [done|].
  destruct (Qlt_le_dec 5 r) as [Hhi|Hlo].
  - right. split; [done|]. by apply snap_high.
  - left. split; [done|]. by apply snap_low.
Qed.

(** X1: snapping moves a score by at most three points: the result is
    above [s - 3] and at most [s + 3]. *)
Theorem snap_within_three_points (s : Q) : s - 3 < snap s ∧ snap s <= s + 3.
Proof.
  destruct (snap_cases s) as (H0 & H10 & [[Hr ->]|[Hr ->]]); split; lra.
Qed.

(** X2: a score that has been snapped is left alone by the snap step. *)
Theorem snap_idempotent (s : Q) : snap (snap s) = snap s.
Proof.
  assert (Hfix : ∀ (q : Z) (c : Q), (c = 3 ∨ c = 7) →
            snap (c + 10 * inject_Z q) = c + 10 * inject_Z q).
  { intros q c Hc.
    assert (Hq : Qfloor ((c + 10 * inject_Z q) / 10) = q).
    { apply Qfloor_unique.
      - apply Qle_shift_div_l; [reflexivity|]. destruct Hc as [-> | ->]; lra.
      - apply Qlt_shift_div_r; [reflexivity|]. destruct Hc as [-> | ->]; lra. }
    destruct Hc as [-> | ->].
    - rewrite snap_low; rewrite Hq; [done | lra].
    - rewrite snap_high; rewrite Hq; [done | lra]. }
  destruct (snap_cases s) as (_ & _ & [[_ ->]|[_ ->]]); apply Hfix; auto.
Qed.

(** X3: the snap step is monotone: a higher score is never snapped to a
    lower one. *)
Theorem snap_monotone (s1 s2 : Q) : s1 <= s2 → snap s1 <= snap s2.
Proof.
  intros Hle.
  assert (Hq : (Qfloor (s1 / 10) ≤ Qfloor (s2 / 10))%Z).
  { apply Qfloor_resp_le. apply Qle_shift_div_l; [reflexivity|].
    assert (s1 / 10 * 10 == s1) by (field; discriminate). lra. }
  destruct (snap_cases s1) as (H0 & H10 & Hs1).
  destruct (snap_cases s2) as (H0' & H10' & Hs2).
  destruct (decide (Qfloor (s1 / 10) = Qfloor (s2 / 10))) as [Heq|Hne].
  - rewrite Heq in *.
    destruct Hs1 as [[Hr1 ->]|[Hr1 ->]], Hs2 as [[Hr2 ->]|[Hr2 ->]]; lra.
  - assert (Hlt : inject_Z (Qfloor (s1 / 10)) + 1 <= inject_Z (Qfloor (s2 / 10))).
    { change 1 with (inject_Z 1). rewrite <- inject_Z_plus, <- Zle_Qle. lia. }
    destruct Hs1 as [[Hr1 ->]|[Hr1 ->]], Hs2 as [[Hr2 ->]|[Hr2 ->]]; lra.
Qed.

Lemma snap_monotone_witness : snap 24 <= snap (51 # 2).
Proof. apply (snap_monotone 24 (51 # 2)). vm_compute. discriminate. Defined.

(** X4: with a blend weight between 0 and 1, the blended and rounded
    score is monotone in the raw score, for a team with or without a
    common score. *)
Theorem blend_common_score_monotone
    (team_common_scores : gmap string Q) (blend_common add_points : Q)
    (team : string) (x y : Q) :
  blend_common <= 1 → x <= y →
  blend_common_score team_common_scores blend_common add_points team x <=
  blend_common_score team_common_scores blend_common add_points team y.
Proof.
  intros Hb Hxy. unfold blend_common_score. apply snap_monotone.
  destruct (team_common_scores !! team) as [common|]; [|lra].
  assert (0 <= (y - x) * (1 - blend_common)) by (apply Qmult_le_0_compat; lra).
  lra.
Qed.

Lemma blend_common_score_monotone_witness :
  blend_common_score {[ "AA"%string := 24 ]} (3 # 10) 3 "AA" 20 <=
  blend_common_score {[ "AA"%string := 24 ]} (3 # 10) 3 "AA" 30.
Proof.
  apply (blend_common_score_monotone {[ "AA"%string := 24 ]} (3 # 10) 3 "AA" 20 30);
    vm_compute; discriminate.
Defined.

(** ** Grouping a frame by a key *)

(** Reading the groups of a list of distinct keys one after the other
    visits every row with one of those keys exactly once. *)
Lemma bind_filter_partition {A K} `{EqDecision K} (key : A → K)
    (keys : list K) (l : list A) :
  NoDup keys →
  keys ≫= (λ k, filter (λ x, key x = k) l) ≡ₚ filter (λ x, key x ∈ keys) l.
Proof.
  induction 1 as [|k keys Hk Hnd IH]; cbn.
  - rewrite filter_none; [done|].
    apply Forall_forall. intros x _. apply not_elem_of_nil.
  - rewrite IH. clear IH Hnd.
    induction l as [|x l IHl]; [done|].
    rewrite !filter_cons.
    destruct (decide (key x = k)) as [Hx|Hx].
    + rewrite decide_False by (by rewrite Hx).
      rewrite decide_True by (rewrite Hx; apply list_elem_of_here).
      cbn. by rewrite IHl.
    + destruct (decide (key x ∈ keys)) as [Hin|Hin].
      * rewrite decide_True by (by apply list_elem_of_further).
        rewrite <- Permutation_middle. by rewrite IHl.
      * rewrite decide_False; [done|].
        rewrite elem_of_cons. intros [?|?]; done.
Qed.

Lemma bind_filter_unique {A K} `{EqDecision K} (key : A → K) (l : list A) :
  unique (key <$> l) ≫= (λ k, filter (λ x, key x = k) l) ≡ₚ l.
Proof.
  rewrite bind_filter_partition by apply NoDup_unique_from.
  rewrite filter_all; [done|].
  apply Forall_forall. intros x Hx.
  apply elem_of_unique. by apply list_elem_of_fmap_2.
Qed.

(** ** More on the rolling team statistics *)

(** X5: the only failures of [compute_rolling_team_stats] are an empty
    frame and a window of no season. *)
Theorem compute_rolling_team_stats_fails_iff (df : list Row) (n_seasons : nat) :
  compute_rolling_team_stats df n_seasons = None ↔ df = [] ∨ n_seasons = 0%nat.
Proof.
  split.
  - intros Hnone. destruct df as [|r df]; [by left|].
    destruct n_seasons as [|n]; [by right|].
    destruct (compute_rolling_team_stats_total (r :: df) (S n)) as [out Hout];
      [done | lia | congruence].
  - intros [-> | ->]; [done|].
    unfold compute_rolling_team_stats.
    destruct (decide (unique _ = [])); [done|].
    by rewrite decide_True.
Qed.

Lemma roll_team_row_id (window : nat) (team_df : list Row) :
  row_id <$> roll_team window team_df = row_id <$> team_df.
Proof.
  unfold roll_team. rewrite fmap_imap, <- imap_const.
  apply imap_ext. by intros i r _.
Qed.

Lemma fmap_bind_comm {A B C} (f : B → C) (g : A → list B) (l : list A) :
  f <$> (l ≫= g) = l ≫= (λ x, f <$> g x).
Proof.
  induction l as [|x l IH]; [done|].
  by rewrite !bind_cons, fmap_app, IH.
Qed.

(** X6: the rolling step returns the rows of the input, each once: it
    keeps the game, season, week, team, opponent and score of every row
    and changes the order and the statistics only. *)
Theorem compute_rolling_team_stats_keeps_rows
    (df out : list Row) (n_seasons : nat) :
  compute_rolling_team_stats df n_seasons = Some out →
  row_id <$> out ≡ₚ row_id <$> df.
Proof.
  unfold compute_rolling_team_stats. intros Hout.
  destruct (decide (unique _ = [])); [done|].
  destruct (decide _); [done|]. injection Hout as <-.
  rewrite fmap_bind_comm.
  rewrite (list_bind_ext _
             (λ t, row_id <$> filter (λ r, team r = t) (sort_values row_leb df))
             _ (unique (team <$> sort_values row_leb df)))
    by (intros; apply roll_team_row_id || done).
  rewrite <- fmap_bind_comm, bind_filter_unique.
  by rewrite sort_values_Permutation.
Qed.

Lemma compute_rolling_team_stats_keeps_rows_witness :
  row_id <$> sample_rolled ≡ₚ row_id <$> sample_games.
Proof.
  apply (compute_rolling_team_stats_keeps_rows sample_games sample_rolled 1).
  reflexivity.
Defined.

Lemma insert_sorted_first (x : Row) (l : list Row) :
  Forall (λ y, row_leb x y = true) l → insert_sorted row_leb x l = x :: l.
Proof. intros Hl. destruct Hl as [|y l Hy _]; cbn; [done|]. by rewrite Hy. Qed.

Lemma filter_insert_sorted (P : Row → Prop) `{!∀ r, Decision (P r)}
    (x : Row) (l : list Row) :
  StronglySorted (λ a b, row_leb a b = true) l →
  filter P (insert_sorted row_leb x l) =
    if decide (P x) then insert_sorted row_leb x (filter P l) else filter P l.
Proof.
  induction 1 as [|y l Hl IH Hy].
  - change (insert_sorted row_leb x []) with [x].
    rewrite filter_cons, !filter_nil. by destruct (decide (P x)).
  - change (insert_sorted row_leb x (y :: l))
      with (if row_leb x y then x :: y :: l else y :: insert_sorted row_leb x l).
    destruct (row_leb x y) eqn:Hxy.
    + rewrite (filter_cons _ x). destruct (decide (P x)); [|done].
      rewrite insert_sorted_first; [done|].
      apply Forall_forall. intros z Hz.
      apply list_elem_of_filter in Hz as [_ Hz].
      apply elem_of_cons in Hz as [->|Hz]; [done|].
      rewrite Forall_forall in Hy. eapply row_leb_trans; [exact Hxy | by apply Hy].
    + rewrite !(filter_cons _ y). destruct (decide (P y)).
      * rewrite IH. destruct (decide (P x)); [|done]. cbn. by rewrite Hxy.
      * exact IH.
Qed.

(** Sorting and then reading the rows that satisfy a test gives the same
    as sorting those rows alone. *)
Lemma filter_sort_values (P : Row → Prop) `{!∀ r, Decision (P r)} (df : list Row) :
  filter P (sort_values row_leb df) = sort_values row_leb (filter P df).
Proof.
  induction df as [|x df IH]; [done|].
  change (sort_values row_leb (x :: df))
    with (insert_sorted row_leb x (sort_values row_leb df)).
  rewrite filter_insert_sorted by apply sort_values_StronglySorted.
  rewrite filter_cons, IH. by destruct (decide (P x)).
Qed.

(** X7: the rolled statistics of a team depend on that team's rows only:
    two frames with the same rows for the team, in the same order, give
    the same rows for the team. *)
Theorem rolling_has_no_cross_team_leakage
    (df1 df2 out1 out2 : list Row) (n_seasons : nat) (t : string) :
  filter (λ r, team r = t) df1 = filter (λ r, team r = t) df2 →
  compute_rolling_team_stats df1 n_seasons = Some out1 →
  compute_rolling_team_stats df2 n_seasons = Some out2 →
  filter (λ r, team r = t) out1 = filter (λ r, team r = t) out2.
Proof.
  intros Hsame H1 H2.
  rewrite (compute_rolling_team_stats_team _ _ _ _ H1).
  rewrite (compute_rolling_team_stats_team _ _ _ _ H2).
  by rewrite !filter_sort_values, Hsame.
Qed.

Lemma rolling_has_no_cross_team_leakage_witness :
  filter (λ r, team r = "AA"%string) sample_rolled =
  filter (λ r, team r = "AA"%string)
    (default [] (compute_rolling_team_stats
                   (sample_row "BB" "CC" 2019 3 77 :: sample_games) 1)).
Proof.
  apply (rolling_has_no_cross_team_leakage sample_games
           (sample_row "BB" "CC" 2019 3 77 :: sample_games) _ _ 1 "AA");
    reflexivity.
Defined.

(** X8: the rolled statistics never look ahead: the rows of a team frame
    are rolled to the same values whether or not later rows follow. *)
Theorem roll_team_ignores_later_rows
    (window i : nat) (team_df later : list Row) (r r' : Row) (c : string) :
  roll_team window team_df !! i = Some r →
  roll_team window (team_df ++ later) !! i = Some r' →
  row_id r = row_id r' ∧ stats r c = stats r' c.
Proof.
  intros Hr Hr'.
  apply roll_team_lookup in Hr
    as (raw & Hraw & Hg & Hs & Hw & Ht & Ho & Hsc & Hbase & Hother).
  apply roll_team_lookup in Hr'
    as (raw' & Hraw' & Hg' & Hs' & Hw' & Ht' & Ho' & Hsc' & Hbase' & Hother').
  pose proof (lookup_lt_Some _ _ _ Hraw) as Hi.
  rewrite lookup_app_l, Hraw in Hraw' by done. injection Hraw' as <-.
  split.
  - unfold row_id. congruence.
  - destruct (decide (c ∈ base_feature_cols)) as [Hc|Hc].
    + rewrite (Hbase c Hc), (Hbase' c Hc). unfold rolling_window.
      by rewrite take_app_le by lia.
    + by rewrite (Hother c Hc), (Hother' c Hc).
Qed.

Lemma roll_team_ignores_later_rows_witness :
  row_id (default (sample_row "NA" "NA" 0 0 0) (roll_team 17 sample_team_games !! 1%nat)) =
  row_id (default (sample_row "NA" "NA" 0 0 0)
            (roll_team 17 (sample_team_games ++ sample_later_games) !! 1%nat)) ∧
  stats (default (sample_row "NA" "NA" 0 0 0) (roll_team 17 sample_team_games !! 1%nat))
    "plays" =
  stats (default (sample_row "NA" "NA" 0 0 0)
           (roll_team 17 (sample_team_games ++ sample_later_games) !! 1%nat))
    "plays".
Proof.
  apply (roll_team_ignores_later_rows 17 1 sample_team_games sample_later_games
           _ _ "plays"); reflexivity.
Defined.

Lemma qsum_bounds (lo hi : Q) (l : list Q) :
  Forall (λ x, lo <= x ∧ x <= hi) l →
  inject_Z (Z.of_nat (length l)) * lo <= qsum l ∧
  qsum l <= inject_Z (Z.of_nat (length l)) * hi.
Proof.
  induction 1 as [|x l [Hlo Hhi] _ [IHlo IHhi]]; cbn [length qsum foldr].
  - change (inject_Z (Z.of_nat 0)) with 0. lra.
  - rewrite Nat2Z.inj_succ, <- Z.add_1_r, inject_Z_plus.
    change (inject_Z 1) with 1. fold (qsum l). lra.
Qed.

Lemma mean_bounds (lo hi : Q) (l : list Q) :
  l ≠ [] → Forall (λ x, lo <= x ∧ x <= hi) l → lo <= mean l ∧ mean l <= hi.
Proof.
  intros Hne Hall. destruct (qsum_bounds lo hi l Hall) as [Hlo Hhi].
  assert (Hn : 0 < inject_Z (Z.of_nat (length l))).
  { change 0 with (inject_Z 0). rewrite <- Zlt_Qlt. destruct l; [done|]. cbn. lia. }
  unfold mean. split.
  - apply Qle_shift_div_l; [done|]. lra.
  - apply Qle_shift_div_r; [done|]. lra.
Qed.

Lemma compute_rolling_team_stats_Some (df out : list Row) (n_seasons : nat) :
  compute_rolling_team_stats df n_seasons = Some out → (0 < n_seasons * 17)%nat.
Proof.
  unfold compute_rolling_team_stats. intros Hout.
  destruct (decide (unique _ = [])); [done|].
  destruct (decide (_ = 0%nat)); [done|]. lia.
Qed.

(** X9: a rolled statistic stays within the range of the raw values: if
    a base column lies between [lo] and [hi] in every row of the input,
    it does so in every row of the result. *)
Theorem rolled_stats_within_range
    (df out : list Row) (n_seasons : nat) (c : string) (lo hi : Q) :
  compute_rolling_team_stats df n_seasons = Some out →
  c ∈ base_feature_cols →
  (∀ r, r ∈ df → lo <= stats r c ∧ stats r c <= hi) →
  ∀ r, r ∈ out → lo <= stats r c ∧ stats r c <= hi.
Proof.
  intros Hout Hc Hdf r Hr.
  pose proof (compute_rolling_team_stats_Some _ _ _ Hout) as Hw.
  assert (Hin : r ∈ filter (λ x, team x = team r) out)
    by (by apply list_elem_of_filter).
  rewrite (compute_rolling_team_stats_team _ _ _ _ Hout) in Hin.
  apply list_elem_of_lookup in Hin as [i Hi].
  apply roll_team_lookup in Hi as (raw & Hraw & _ & _ & _ & _ & _ & _ & Hbase & _).
  rewrite (Hbase c Hc).
  set (games := filter (λ x, team x = team r) (sort_values row_leb df)) in *.
  pose proof (lookup_lt_Some _ _ _ Hraw) as Hlt.
  destruct (rolling_window_recent (n_seasons * 17) i games Hlt) as [Htake Hlen].
  apply mean_bounds.
  - intros Hnil. apply fmap_nil_inv in Hnil. rewrite Hnil in Hlen.
    change (length []) with 0%nat in Hlen. lia.
  - apply Forall_fmap, Forall_forall. intros x Hx. cbn. apply Hdf.
    assert (Hxg : x ∈ games).
    { apply (subseteq_take (S i)). rewrite Htake.
      apply elem_of_app. by right. }
    apply list_elem_of_filter in Hxg as [_ Hxs].
    by rewrite sort_values_Permutation in Hxs.
Qed.

Lemma rolled_stats_within_range_witness :
  4 <= stats (default (sample_row "NA" "NA" 0 0 0) (sample_rolled !! 2%nat)) "plays" ∧
  stats (default (sample_row "NA" "NA" 0 0 0) (sample_rolled !! 2%nat)) "plays" <= 60.
Proof.
  apply (rolled_stats_within_range sample_games sample_rolled 1 "plays" 4 60).
  - reflexivity.
  - in_list.
  - intros r Hr.
    repeat (apply elem_of_cons in Hr as [->|Hr]);
      [..|by apply not_elem_of_nil in Hr]; cbn; split; discriminate.
  - at_index 2%nat.
Defined.

(** ** More on the game-level frame *)

Lemma build_game_level_df_row (pbp : list Play.t) (r : Game.t) :
  r ∈ build_game_level_df pbp →
  ∃ k group,
    r = aggregate k group ∧ group ≠ [] ∧
    group = filter (λ p, play_key p = Some k)
              (filter (λ p, is_Some (play_key p)) pbp).
Proof.
  unfold build_game_level_df. intros Hr.
  apply list_elem_of_fmap in Hr as (k & -> & Hk).
  exists k, (filter (λ p, play_key p = Some k)
               (filter (λ p, is_Some (play_key p)) pbp)).
  split; [done|]. split; [|done].
  apply (group_keys_spec pbp) in Hk as (p & Hp & Hpk).
  intros Hnil. eapply (filter_nil_not_elem_of _ _ p Hnil); [done|].
  apply list_elem_of_filter. split; [by rewrite Hpk | done].
Qed.

Lemma as_int_range (b : bool) : 0 <= as_int b ∧ as_int b <= 1.
Proof. destruct b; cbn; split; discriminate. Qed.

(** X11: the third- and fourth-down conversion rates of every row lie
    between 0 and 1. *)
Theorem conversion_rates_between_0_and_1 (pbp : list Play.t) (r : Game.t) :
  r ∈ build_game_level_df pbp →
  (0 <= Game.third_down_pct r ∧ Game.third_down_pct r <= 1) ∧
  (0 <= Game.fourth_down_pct r ∧ Game.fourth_down_pct r <= 1).
Proof.
  intros Hr. apply build_game_level_df_row in Hr as (k & group & -> & Hne & _).
  destruct k as [[[[g s] w] pos] def]. cbn.
  split; apply mean_bounds;
    try (intros Hnil; by apply fmap_nil_inv in Hnil);
    apply Forall_fmap, Forall_forall; intros p _; apply as_int_range.
Qed.

Lemma conversion_rates_between_0_and_1_witness :
  (0 <= Game.third_down_pct sample_game_row ∧
   Game.third_down_pct sample_game_row <= 1) ∧
  (0 <= Game.fourth_down_pct sample_game_row ∧
   Game.fourth_down_pct sample_game_row <= 1).
Proof.
  apply (conversion_rates_between_0_and_1 sample_pbp sample_game_row).
  at_index 0%nat.
Defined.

(** X12: in every row the play count, the summed EPA and the mean EPA
    agree: the mean is missing exactly when no play of the group has an
    EPA, and otherwise the mean times the count is the sum. *)
Theorem epa_aggregates_agree (pbp : list Play.t) (r : Game.t) :
  r ∈ build_game_level_df pbp →
  (0 ≤ Game.plays r)%Z ∧
  (Game.avg_epa r = None ↔ Game.plays r = 0%Z) ∧
  (Game.plays r = 0%Z → Game.total_epa r = 0) ∧
  ∀ a, Game.avg_epa r = Some a → a * inject_Z (Game.plays r) == Game.total_epa r.
Proof.
  intros Hr. apply build_game_level_df_row in Hr as (k & group & -> & _ & _).
  destruct k as [[[[g s] w] pos] def]. cbn.
  unfold agg_count, agg_mean, agg_sum.
  destruct (omap id (map Play.epa group)) as [|x obs] eqn:Hobs.
  - cbn. split; [lia|]. split; [done|]. split; [done|]. by intros a.
  - assert (Hlen : (0 < Z.of_nat (length (x :: obs)))%Z) by (cbn; lia).
    split; [lia|]. split; [split; [done | lia]|]. split; [lia|].
    intros a [= <-]. unfold mean. field.
    change 0 with (inject_Z 0). rewrite inject_Z_injective. lia.
Qed.

Lemma epa_aggregates_agree_witness :
  (0 ≤ Game.plays sample_game_row)%Z ∧
  (Game.avg_epa sample_game_row = None ↔ Game.plays sample_game_row = 0%Z) ∧
  (Game.plays sample_game_row = 0%Z → Game.total_epa sample_game_row = 0) ∧
  ∀ a, Game.avg_epa sample_game_row = Some a →
       a * inject_Z (Game.plays sample_game_row) == Game.total_epa sample_game_row.
Proof.
  apply (epa_aggregates_agree sample_pbp sample_game_row).
  at_index 0%nat.
Defined.

Lemma groups_cover_plays (pbp : list Play.t) :
  sort_values key_leb
    (unique (omap play_key (filter (λ p, is_Some (play_key p)) pbp)))
    ≫= (λ k, filter (λ p, play_key p = Some k)
               (filter (λ p, is_Some (play_key p)) pbp))
  ≡ₚ filter (λ p, is_Some (play_key p)) pbp.
Proof.
  set (df := filter (λ p, is_Some (play_key p)) pbp).
  rewrite sort_values_Permutation.
  transitivity ((Some <$> unique (omap play_key df))
                  ≫= (λ ok, filter (λ p, play_key p = ok) df)).
  { by rewrite list_fmap_bind. }
  rewrite bind_filter_partition.
  - rewrite filter_all; [done|].
    apply Forall_forall. intros p Hp.
    assert (Hk : is_Some (play_key p)).
    { subst df. by apply list_elem_of_filter in Hp as [? _]. }
    destruct Hk as [k Hk]. rewrite Hk. apply list_elem_of_fmap_2.
    apply elem_of_unique, list_elem_of_omap. by exists p.
  - apply (NoDup_fmap_2 Some), NoDup_unique_from.
Qed.

Lemma agg_count_app (l1 l2 : list (option Q)) :
  agg_count (l1 ++ l2) = (agg_count l1 + agg_count l2)%Z.
Proof. unfold agg_count. rewrite omap_app, length_app. lia. Qed.

Lemma sum_plays_of_groups (df : list Play.t) (keys : list group_key) :
  foldr Z.add 0%Z
    (Game.plays <$>
       map (λ k, aggregate k (filter (λ p, play_key p = Some k) df)) keys) =
  agg_count (Play.epa <$> (keys ≫= (λ k, filter (λ p, play_key p = Some k) df))).
Proof.
  induction keys as [|k keys IH]; [done|].
  rewrite bind_cons, fmap_app, agg_count_app, <- IH.
  cbn [map]. rewrite fmap_cons. cbn [foldr]. f_equal.
  by destruct k as [[[[g s] w] pos] def].
Qed.

(** X13: no play is counted twice and none is lost: the play counts of
    the rows add up to the number of plays that have both teams and an
    EPA. *)
Theorem play_counts_add_up (pbp : list Play.t) :
  foldr Z.add 0%Z (Game.plays <$> build_game_level_df pbp) =
  agg_count (Play.epa <$> filter (λ p, is_Some (play_key p)) pbp).
Proof.
  unfold build_game_level_df. rewrite sum_plays_of_groups.
  unfold agg_count. by rewrite (groups_cover_plays pbp).
Qed.

(** X14: a play without a team on offense or on defense is dropped: the
    frame is the same with and without it. *)
Theorem play_without_team_is_ignored (before after : list Play.t) (p : Play.t) :
  Play.posteam p = None ∨ Play.defteam p = None →
  build_game_level_df (before ++ p :: after) = build_game_level_df (before ++ after).
Proof.
  intros Hp. unfold build_game_level_df.
  assert (Hkey : ¬ is_Some (play_key p)).
  { unfold play_key. destruct Hp as [-> | ->]; [|destruct (Play.posteam p)];
      by intros [? ?]. }
  by rewrite !filter_app, filter_cons_False.
Qed.

Lemma play_without_team_is_ignored_witness :
  build_game_level_df
    ([sample_play "2023_01_AA_BB" (Some "AA"%string) (Some "BB"%string) 1]
     ++ sample_play "2023_01_AA_BB" (Some "AA"%string) None 9
     :: [sample_play "2023_01_AA_BB" (Some "AA"%string) (Some "BB"%string) 3]) =
  build_game_level_df
    ([sample_play "2023_01_AA_BB" (Some "AA"%string) (Some "BB"%string) 1]
     ++ [sample_play "2023_01_AA_BB" (Some "AA"%string) (Some "BB"%string) 3]).
Proof.
  apply (play_without_team_is_ignored
           [sample_play "2023_01_AA_BB" (Some "AA"%string) (Some "BB"%string) 1]
           [sample_play "2023_01_AA_BB" (Some "AA"%string) (Some "BB"%string) 3]
           (sample_play "2023_01_AA_BB" (Some "AA"%string) None 9)).
  right. reflexivity.
Defined.

(** ** More on the opponent adjustment *)

Lemma dom_foldl_insert {V} (key : string → string) (val : string → V)
    (cols : list string) (m : gmap string V) :
  dom (foldl (λ m col, <[key col := val col]> m) m cols) =
  dom m ∪ list_to_set (key <$> cols).
Proof.
  revert m. induction cols as [|c cols IH]; intros m; cbn [foldl].
  - by rewrite fmap_nil, list_to_set_nil, (right_id_L ∅ (∪)).
  - rewrite IH, dom_insert_L, fmap_cons, list_to_set_cons.
    by rewrite (comm_L (∪) {[key c]} (dom m)), <- (assoc_L (∪)).
Qed.

Lemma NoDup_base_feature_cols : NoDup base_feature_cols.
Proof. apply (bool_decide_unpack _). vm_compute. exact I. Qed.

Lemma NoDup_vs_opp_cols : NoDup (vs_opp <$> base_feature_cols).
Proof.
  apply NoDup_fmap_2_strong; [|apply NoDup_base_feature_cols].
  intros c1 c2 _ _. apply vs_opp_inj.
Qed.

(** X15: the opponent adjustment keeps the rows and their order and adds
    to each row exactly twelve labels, one ["<col>_vs_opp"] per base
    column. *)
Theorem add_matchup_adjusted_features_labels (df : list Row) :
  base <$> add_matchup_adjusted_features df = df ∧
  ∀ R', R' ∈ add_matchup_adjusted_features df →
        dom (extra R') = list_to_set (vs_opp <$> base_feature_cols) ∧
        size (extra R') = 12%nat.
Proof.
  unfold add_matchup_adjusted_features. split.
  - generalize df at 2 3. intros l.
    induction l as [|r l IH]; [done|].
    cbn [map]. by rewrite fmap_cons, IH.
  - intros R' HR'. apply list_elem_of_fmap in HR' as (R & -> & _).
    assert (Hdom : dom (extra (adjust_row df R)) =
                   list_to_set (vs_opp <$> base_feature_cols)).
    { unfold adjust_row. cbn [extra].
      by rewrite dom_foldl_insert, dom_empty_L, (left_id_L ∅ (∪)). }
    split; [done|].
    rewrite <- size_dom, Hdom, size_list_to_set by apply NoDup_vs_opp_cols.
    reflexivity.
Qed.

Lemma qsum_Permutation (l l' : list Q) : l ≡ₚ l' → qsum l == qsum l'.
Proof.
  induction 1 as [|x l l' _ IH|x y l|l1 l2 l3 _ IH1 _ IH2]; cbn.
  - reflexivity.
  - fold (qsum l) (qsum l'). lra.
  - fold (qsum l). lra.
  - lra.
Qed.

Lemma mean_Permutation (l l' : list Q) : l ≡ₚ l' → mean l == mean l'.
Proof.
  intros Hp. unfold mean.
  rewrite (qsum_Permutation _ _ Hp), (Permutation_length Hp). reflexivity.
Qed.

Lemma col_means_Permutation (df df' : list Row) (c : string) :
  df ≡ₚ df' → col_means df c == col_means df' c.
Proof.
  intros Hp. unfold col_means. apply mean_Permutation.
  by apply Permutation_map.
Qed.

(** X16: the opponent-adjusted values of a row do not depend on the
    order of the rows in the frame (as rational numbers). *)
Theorem adjustment_independent_of_row_order
    (df df' : list Row) (R : Row) (c : string) :
  df ≡ₚ df' → c ∈ base_feature_cols →
  ∃ v v',
    extra (adjust_row df R) !! vs_opp c = Some v ∧
    extra (adjust_row df' R) !! vs_opp c = Some v' ∧
    v == v'.
Proof.
  intros Hp Hc. rewrite !adjust_row_extra by done.
  eexists _, _. split; [done|]. split; [done|].
  assert (Hprior : prior_opp_rows df R ≡ₚ prior_opp_rows df' R).
  { unfold prior_opp_rows. by rewrite Hp. }
  destruct (decide (prior_opp_rows df R = [])) as [Hnil|Hne].
  - rewrite Hnil in Hprior. apply Permutation_nil_l in Hprior.
    rewrite Hnil, <- Hprior, groupby_team_mean_nil. cbn [last].
    pose proof (col_means_Permutation _ _ c Hp). lra.
  - assert (Hne' : prior_opp_rows df' R ≠ []).
    { intros Hnil. rewrite Hnil in Hprior. by apply Permutation_nil_r in Hprior. }
    rewrite !last_groupby_prior by done.
    pose proof (col_means_Permutation _ _ c Hprior). lra.
Qed.

Lemma adjustment_independent_of_row_order_witness :
  ∃ v v',
    extra (adjust_row sample_hist (sample_row "AA" "BB" 2020 1 10))
      !! vs_opp "plays" = Some v ∧
    extra (adjust_row
             [ sample_row "BB" "AA" 2018 1 4; sample_row "AA" "BB" 2020 1 10;
               sample_row "BB" "AA" 2019 1 8 ]
             (sample_row "AA" "BB" 2020 1 10))
      !! vs_opp "plays" = Some v' ∧
    v == v'.
Proof.
  apply (adjustment_independent_of_row_order sample_hist).
  - apply Permutation_swap.
  - in_list.
Defined.

(** ** More on the baselines and the prediction frame *)

Lemma groupby_team_mean_teams (frame : list Row) :
  (groupby_team_mean frame).*1 = sort_values String.leb (unique (team <$> frame)).
Proof.
  unfold groupby_team_mean.
  assert (Hfst : ∀ ts : list string,
            (map (λ t, (t, col_means (filter (λ r, team r = t) frame))) ts).*1 = ts).
  { induction ts as [|t ts IH]; [done|]. cbn [map]. by rewrite fmap_cons, IH. }
  apply Hfst.
Qed.

(** X17: the baseline table has a line for exactly the teams that have a
    row in the recent frame, and the line of a team holds the column
    means of that team's rows. *)
Theorem team_baselines_of_lookup (games_recent : list Row) (t : string) :
  (t ∈ team <$> games_recent →
   team_baselines_of games_recent !! t =
     Some (col_means (filter (λ r, team r = t) games_recent))) ∧
  (t ∉ team <$> games_recent → team_baselines_of games_recent !! t = None).
Proof.
  unfold team_baselines_of.
  assert (Hteams : ∀ t', t' ∈ (groupby_team_mean games_recent).*1 ↔
                         t' ∈ team <$> games_recent).
  { intros t'. by rewrite groupby_team_mean_teams, sort_values_Permutation,
      elem_of_unique. }
  split; intros Ht.
  - apply elem_of_list_to_map_1.
    + rewrite groupby_team_mean_teams, sort_values_Permutation.
      apply NoDup_unique_from.
    + unfold groupby_team_mean.
      apply list_elem_of_fmap. exists t. split; [reflexivity|].
      by rewrite sort_values_Permutation, elem_of_unique.
  - apply not_elem_of_list_to_map_1. by rewrite Hteams.
Qed.

Lemma make_entry_cells
    (team_baselines : gmap string (string → Q)) (games_recent : list Row)
    (game_id team opp : string) (is_home : bool)
    (entry : gmap string value) (c : string) :
  make_entry team_baselines games_recent game_id team opp is_home = Some entry →
  c ∈ base_feature_cols →
  entry !! c = Some (VNum (base_feature team_baselines games_recent team opp is_home c)) ∧
  entry !! vs_opp c = Some (VNum 0).
Proof.
  intros Hentry Hc. unfold base_feature.
  assert (Hassigned :
    base_feature_assignment team_baselines games_recent team opp
      (new_entry game_id team opp is_home) !! c =
    Some (VNum match team_baselines !! team with
               | Some team_line =>
                   team_line c - match team_baselines !! opp with
                                 | Some opp_line => opp_line c
                                 | None => 0
                                 end
               | None => col_means games_recent c
               end)).
  { destruct (team_baselines !! team) as [line|] eqn:Ht.
    - by apply base_feature_assignment_present.
    - by apply base_feature_assignment_absent. }
  destruct is_home.
  - destruct (make_entry_home team_baselines games_recent game_id team opp)
      as (v & Hv & Heq).
    rewrite Hentry in Heq. injection Heq as ->. split.
    + rewrite neutral_vs_opp_base by done.
      destruct (decide (c = "total_epa"%string)) as [->|Hne].
      * rewrite lookup_insert_eq, bool_decide_true by done.
        rewrite Hassigned in Hv. by injection Hv as <-.
      * rewrite lookup_insert_ne by done.
        rewrite bool_decide_false by (by intros [_ ?]). exact Hassigned.
    + by apply neutral_vs_opp_zero.
  - rewrite make_entry_away in Hentry. injection Hentry as <-. split.
    + rewrite neutral_vs_opp_base by done.
      rewrite bool_decide_false by (by intros [? _]). exact Hassigned.
    + by apply neutral_vs_opp_zero.
Qed.

Lemma sides_lookup (schedule : list ScheduleRow) (k : nat) (g : ScheduleRow) :
  schedule !! k = Some g →
  (schedule ≫= sides) !! (2 * k)%nat =
    Some (sched_game_id g, sched_home_team g, sched_away_team g, true) ∧
  (schedule ≫= sides) !! (2 * k + 1)%nat =
    Some (sched_game_id g, sched_away_team g, sched_home_team g, false).
Proof.
  revert k. induction schedule as [|g' schedule IH]; intros k Hk; [done|].
  destruct k as [|k].
  - cbn in Hk. injection Hk as ->. done.
  - cbn in Hk. destruct (IH k Hk) as [IH1 IH2].
    replace (2 * S k)%nat with (S (S (2 * k))) by lia.
    replace (S (S (2 * k)) + 1)%nat with (S (S (2 * k + 1))) by lia.
    done.
Qed.

(** The numbers that the model reads from an entry: the base features
    followed by one zero per vs-opponent column. *)
Lemma entry_features
    (team_baselines : gmap string (string → Q)) (games_recent : list Row)
    (game_id team opp : string) (is_home : bool) (entry : gmap string value) :
  make_entry team_baselines games_recent game_id team opp is_home = Some entry →
  mapM (num_at entry) feature_cols =
    Some ((base_feature team_baselines games_recent team opp is_home
             <$> base_feature_cols)
          ++ replicate (length base_feature_cols) 0).
Proof.
  intros Hentry. apply mapM_Some. unfold feature_cols.
  assert (Hcells : ∀ cols, cols ⊆ base_feature_cols →
    Forall2 (λ c y, num_at entry c = Some y) cols
      (base_feature team_baselines games_recent team opp is_home <$> cols) ∧
    Forall2 (λ c y, num_at entry c = Some y) (map vs_opp cols)
      (replicate (length cols) 0)).
  { induction cols as [|c cols IH]; intros Hsub; [by split; constructor|].
    destruct IH as [IH1 IH2]; [set_solver|].
    destruct (make_entry_cells _ _ _ _ _ _ _ c Hentry) as [Hc Hv]; [set_solver|].
    split; constructor; try done; unfold num_at.
    - by rewrite Hc.
    - by rewrite Hv. }
  destruct (Hcells base_feature_cols) as [H1 H2]; [done|].
  by apply Forall2_app.
Qed.

(** A row of the prediction frame: the entry of its side and the blended
    answer of the model on the entry's features. *)
Lemma make_prediction_df_row_score
    (team_baselines : gmap string (string → Q)) (games_recent : list Row)
    (model : list Q → Q) (team_common_scores : gmap string Q)
    (schedule : list ScheduleRow) (blend_common add_points : Q)
    (df_pred : list (gmap string value)) (i : nat) (row : gmap string value) :
  make_prediction_df team_baselines games_recent model team_common_scores
    schedule blend_common add_points = Some df_pred →
  df_pred !! i = Some row →
  ∃ game_id team opp is_home entry,
    (schedule ≫= sides) !! i = Some (game_id, team, opp, is_home) ∧
    make_entry team_baselines games_recent game_id team opp is_home = Some entry ∧
    row = <["predicted_score" :=
              VNum (blend_common_score team_common_scores blend_common add_points team
                      (model ((base_feature team_baselines games_recent team opp is_home
                                 <$> base_feature_cols)
                              ++ replicate (length base_feature_cols) 0)))]> entry.
Proof.
  unfold make_prediction_df. intros Hdf Hrow.
  destruct (mapM _ (schedule ≫= sides)) as [preds|] eqn:Hpreds; [|done].
  cbn in Hdf. destruct preds as [|entry0 preds]; [done|].
  apply mapM_Some in Hdf. apply mapM_Some in Hpreds.
  destruct (Forall2_lookup_r _ _ _ _ _ Hdf Hrow) as (entry & Hentry & Hpred).
  destruct (Forall2_lookup_r _ _ _ _ _ Hpreds Hentry)
    as ([[[game_id team] opp] is_home] & Hside & Hmake).
  unfold predict_row in Hpred.
  rewrite (entry_features _ _ _ _ _ _ _ Hmake) in Hpred. cbn in Hpred.
  assert (Hteam : str_at entry "team" = Some team).
  { unfold str_at.
    rewrite (make_entry_meta _ _ _ _ _ _ _ "team" Hmake)
      by (apply (bool_decide_unpack _); by vm_compute).
    by destruct (new_entry_lookup game_id team opp is_home) as (_ & -> & _). }
  rewrite Hteam in Hpred. cbn in Hpred. injection Hpred as <-.
  by eexists game_id, team, opp, is_home, entry.
Qed.

Lemma prediction_row_meta
    (team_baselines : gmap string (string → Q)) (games_recent : list Row)
    (game_id team opp : string) (is_home : bool)
    (entry : gmap string value) (p : value) :
  make_entry team_baselines games_recent game_id team opp is_home = Some entry →
  <["predicted_score" := p]> entry !! "game_id" = Some (VStr game_id) ∧
  <["predicted_score" := p]> entry !! "team" = Some (VStr team) ∧
  <["predicted_score" := p]> entry !! "opp" = Some (VStr opp) ∧
  <["predicted_score" := p]> entry !! "is_home" = Some (VBool is_home).
Proof.
  intros Hentry.
  destruct (new_entry_lookup game_id team opp is_home) as (Hg & Ht & Ho & Hh).
  repeat split; rewrite lookup_insert_ne by done;
    rewrite (make_entry_meta _ _ _ _ _ _ _ _ Hentry)
      by (apply (bool_decide_unpack _); by vm_compute); done.
Qed.

(** X18: [make_prediction_df] fails on an empty schedule (the frame of
    no entry has no column to read); on every other schedule it returns
    a frame with two rows per scheduled game: row [2k] is the home side
    and row [2k+1] the away side of game [k]. *)
Theorem prediction_frame_layout
    (team_baselines : gmap string (string → Q)) (games_recent : list Row)
    (model : list Q → Q) (team_common_scores : gmap string Q)
    (schedule : list ScheduleRow) (blend_common add_points : Q) :
  make_prediction_df team_baselines games_recent model team_common_scores
    [] blend_common add_points = None ∧
  (schedule ≠ [] →
  ∃ df_pred,
    make_prediction_df team_baselines games_recent model team_common_scores
      schedule blend_common add_points = Some df_pred ∧
    length df_pred = (2 * length schedule)%nat ∧
    ∀ k g, schedule !! k = Some g →
      ∃ home_row away_row,
        df_pred !! (2 * k)%nat = Some home_row ∧
        df_pred !! (2 * k + 1)%nat = Some away_row ∧
        home_row !! "game_id" = Some (VStr (sched_game_id g)) ∧
        home_row !! "team" = Some (VStr (sched_home_team g)) ∧
        home_row !! "opp" = Some (VStr (sched_away_team g)) ∧
        home_row !! "is_home" = Some (VBool true) ∧
        away_row !! "game_id" = Some (VStr (sched_game_id g)) ∧
        away_row !! "team" = Some (VStr (sched_away_team g)) ∧
        away_row !! "opp" = Some (VStr (sched_home_team g)) ∧
        away_row !! "is_home" = Some (VBool false)).
Proof.
  split; [reflexivity|]. intros Hschedule.
  destruct (make_prediction_df_total team_baselines games_recent model
              team_common_scores schedule blend_common add_points Hschedule)
    as (df_pred & Hdf & Hlen).
  exists df_pred. split; [done|]. split; [done|].
  intros k g Hk. destruct (sides_lookup schedule k g Hk) as [Hhome Haway].
  pose proof (lookup_lt_Some _ _ _ Hk) as Hlt.
  destruct (lookup_lt_is_Some_2 df_pred (2 * k)) as [home_row Hhr]; [lia|].
  destruct (lookup_lt_is_Some_2 df_pred (2 * k + 1)) as [away_row Har]; [lia|].
  exists home_row, away_row. split; [done|]. split; [done|].
  destruct (make_prediction_df_row_score _ _ _ _ _ _ _ _ _ _ Hdf Hhr)
    as (g1 & t1 & o1 & h1 & e1 & Hs1 & He1 & ->).
  destruct (make_prediction_df_row_score _ _ _ _ _ _ _ _ _ _ Hdf Har)
    as (g2 & t2 & o2 & h2 & e2 & Hs2 & He2 & ->).
  rewrite Hhome in Hs1. injection Hs1 as <- <- <- <-.
  rewrite Haway in Hs2. injection Hs2 as <- <- <- <-.
  destruct (prediction_row_meta _ _ _ _ _ _ _
              (VNum (blend_common_score team_common_scores blend_common add_points
                       (sched_home_team g)
                       (model ((base_feature team_baselines games_recent
                                  (sched_home_team g) (sched_away_team g) true
                                  <$> base_feature_cols)
                               ++ replicate (length base_feature_cols) 0)))) He1)
    as (? & ? & ? & ?).
  destruct (prediction_row_meta _ _ _ _ _ _ _
              (VNum (blend_common_score team_common_scores blend_common add_points
                       (sched_away_team g)
                       (model ((base_feature team_baselines games_recent
                                  (sched_away_team g) (sched_home_team g) false
                                  <$> base_feature_cols)
                               ++ replicate (length base_feature_cols) 0)))) He2)
    as (? & ? & ? & ?).
  repeat split; done.
Qed.

Lemma prediction_frame_layout_witness :
  ∃ df_pred,
    make_prediction_df sample_baselines [] sample_model ∅ sample_schedule
      default_blend_common default_add_points = Some df_pred ∧
    length df_pred = (2 * length sample_schedule)%nat ∧
    ∀ k g, sample_schedule !! k = Some g →
      ∃ home_row away_row,
        df_pred !! (2 * k)%nat = Some home_row ∧
        df_pred !! (2 * k + 1)%nat = Some away_row ∧
        home_row !! "game_id" = Some (VStr (sched_game_id g)) ∧
        home_row !! "team" = Some (VStr (sched_home_team g)) ∧
        home_row !! "opp" = Some (VStr (sched_away_team g)) ∧
        home_row !! "is_home" = Some (VBool true) ∧
        away_row !! "game_id" = Some (VStr (sched_game_id g)) ∧
        away_row !! "team" = Some (VStr (sched_away_team g)) ∧
        away_row !! "opp" = Some (VStr (sched_home_team g)) ∧
        away_row !! "is_home" = Some (VBool false).
Proof.
  apply (proj2 (prediction_frame_layout sample_baselines [] sample_model ∅
                  sample_schedule default_blend_common default_add_points)).
  discriminate.
Defined.

(** X19: the predicted score of a row is the blended and snapped answer
    of the model on the row's twelve base features followed by twelve
    zeros; the base features are the team's baseline minus the
    opponent's, or the means of the recent frame for a team without a
    baseline, with the home-field constant added to the home side's
    [total_epa]. *)
Theorem predicted_score_of_row
    (team_baselines : gmap string (string → Q)) (games_recent : list Row)
    (model : list Q → Q) (team_common_scores : gmap string Q)
    (schedule : list ScheduleRow) (blend_common add_points : Q)
    (df_pred : list (gmap string value)) (i : nat) (row : gmap string value)
    (T O : string) (is_home : bool) :
  make_prediction_df team_baselines games_recent model team_common_scores
    schedule blend_common add_points = Some df_pred →
  df_pred !! i = Some row →
  row !! "team" = Some (VStr T) →
  row !! "opp" = Some (VStr O) →
  row !! "is_home" = Some (VBool is_home) →
  row !! "predicted_score" =
    Some (VNum (blend_common_score team_common_scores blend_common add_points T
                  (model ((base_feature team_baselines games_recent T O is_home
                             <$> base_feature_cols)
                          ++ replicate 12 0)))).
Proof.
  intros Hdf Hrow Hteam Hopp Hhome.
  destruct (make_prediction_df_row_score _ _ _ _ _ _ _ _ _ _ Hdf Hrow)
    as (g & t & o & h & e & _ & He & ->).
  destruct (prediction_row_meta _ _ _ _ _ _ _
              (VNum (blend_common_score team_common_scores blend_common add_points t
                       (model ((base_feature team_baselines games_recent t o h
                                  <$> base_feature_cols)
                               ++ replicate (length base_feature_cols) 0)))) He)
    as (_ & Ht & Ho & Hh).
  rewrite Ht in Hteam. rewrite Ho in Hopp. rewrite Hh in Hhome.
  injection Hteam as ->. injection Hopp as ->. injection Hhome as ->.
  apply lookup_insert_eq.
Qed.

Lemma sample_df_pred_rows :
  make_prediction_df sample_baselines [] sample_model ∅ sample_schedule
    default_blend_common default_add_points = Some sample_df_pred ∧
  sample_df_pred !! 0%nat = Some sample_home_row ∧
  sample_df_pred !! 1%nat = Some sample_away_row.
Proof.
  destruct (make_prediction_df_total sample_baselines [] sample_model ∅
              sample_schedule default_blend_common default_add_points
              ltac:(discriminate))
    as (df & Hdf & Hlen).
  assert (Hsample : sample_df_pred = df) by (unfold sample_df_pred; by rewrite Hdf).
  rewrite <- Hsample in Hdf, Hlen. clear df Hsample.
  split; [done|]. unfold sample_home_row, sample_away_row. split.
  - destruct (lookup_lt_is_Some_2 sample_df_pred 0) as [row Hrow]; [|by rewrite Hrow].
    rewrite Hlen. cbn. lia.
  - destruct (lookup_lt_is_Some_2 sample_df_pred 1) as [row Hrow]; [|by rewrite Hrow].
    rewrite Hlen. cbn. lia.
Qed.

Lemma predicted_score_of_row_witness :
  sample_home_row !! "predicted_score" = Some (VNum 23).
Proof.
  destruct sample_df_pred_rows as (Hdf & Hrow & _).
  assert (Hteam : sample_home_row !! "team" = Some (VStr "AA"))
    by (vm_compute; reflexivity).
  assert (Hopp : sample_home_row !! "opp" = Some (VStr "BB"))
    by (vm_compute; reflexivity).
  assert (Hhome : sample_home_row !! "is_home" = Some (VBool true))
    by (vm_compute; reflexivity).
  pose proof (predicted_score_of_row sample_baselines [] sample_model ∅
                sample_schedule default_blend_common default_add_points
                sample_df_pred 0 sample_home_row "AA" "BB" true
                Hdf Hrow Hteam Hopp Hhome) as H.
  vm_compute in H. vm_compute. exact H.
Defined.

(** X20: every predicted score in the prediction frame is a whole number
    ending in 3 or 7. *)
Theorem predicted_scores_end_in_3_or_7
    (team_baselines : gmap string (string → Q)) (games_recent : list Row)
    (model : list Q → Q) (team_common_scores : gmap string Q)
    (schedule : list ScheduleRow) (blend_common add_points : Q)
    (df_pred : list (gmap string value)) (row : gmap string value) :
  make_prediction_df team_baselines games_recent model team_common_scores
    schedule blend_common add_points = Some df_pred →
  row ∈ df_pred →
  ∃ (p : Q) (k : Z),
    row !! "predicted_score" = Some (VNum p) ∧
    (p = 3 + 10 * inject_Z k ∨ p = 7 + 10 * inject_Z k).
Proof.
  intros Hdf Hrow. apply list_elem_of_lookup in Hrow as [i Hi].
  destruct (make_prediction_df_row_score _ _ _ _ _ _ _ _ _ _ Hdf Hi)
    as (g & t & o & h & e & _ & _ & ->).
  eexists _, _. split; [apply lookup_insert_eq|].
  unfold blend_common_score.
  match goal with |- context [snap ?s] =>
    destruct (snap_cases s) as (_ & _ & [[_ ->]|[_ ->]]) end; auto.
Qed.

Lemma predicted_scores_end_in_3_or_7_witness :
  ∃ (p : Q) (k : Z),
    sample_away_row !! "predicted_score" = Some (VNum p) ∧
    (p = 3 + 10 * inject_Z k ∨ p = 7 + 10 * inject_Z k).
Proof.
  destruct sample_df_pred_rows as (Hdf & _ & Hrow).
  apply (predicted_scores_end_in_3_or_7 sample_baselines [] sample_model ∅
           sample_schedule default_blend_common default_add_points
           sample_df_pred sample_away_row Hdf).
  by apply list_elem_of_lookup_2 in Hrow.
Defined.

(** X21: a scheduled team without a baseline gets, in every base column,
    the mean of that column over the recent frame (the home side's
    [total_epa] raised by the home-field constant), whatever the
    opponent; its vs-opponent columns hold zero. *)
Theorem team_without_baseline_gets_frame_means
    (team_baselines : gmap string (string → Q)) (games_recent : list Row)
    (model : list Q → Q) (team_common_scores : gmap string Q)
    (schedule : list ScheduleRow) (blend_common add_points : Q)
    (df_pred : list (gmap string value)) (i : nat) (row : gmap string value)
    (T : string) (is_home : bool) (c : string) :
  make_prediction_df team_baselines games_recent model team_common_scores
    schedule blend_common add_points = Some df_pred →
  df_pred !! i = Some row →
  row !! "team" = Some (VStr T) →
  row !! "is_home" = Some (VBool is_home) →
  team_baselines !! T = None →
  c ∈ base_feature_cols →
  row !! c = Some (VNum (if bool_decide (is_home = true ∧ c = "total_epa"%string)
                         then col_means games_recent c + HOME_FIELD_ADV
                         else col_means games_recent c)) ∧
  row !! vs_opp c = Some (VNum 0).
Proof.
  intros Hdf Hrow Hteam Hhome Hnone Hc.
  destruct (make_prediction_df_row_score _ _ _ _ _ _ _ _ _ _ Hdf Hrow)
    as (g & t & o & h & e & _ & He & ->).
  destruct (prediction_row_meta _ _ _ _ _ _ _
              (VNum (blend_common_score team_common_scores blend_common add_points t
                       (model ((base_feature team_baselines games_recent t o h
                                  <$> base_feature_cols)
                               ++ replicate (length base_feature_cols) 0)))) He)
    as (_ & Ht & _ & Hh).
  rewrite Ht in Hteam. rewrite Hh in Hhome.
  injection Hteam as ->. injection Hhome as ->.
  destruct (make_entry_cells _ _ _ _ _ _ _ c He Hc) as [Hbase Hvs].
  destruct predicted_score_apart as [_ Hfeat].
  rewrite (lookup_insert_ne _ _ c)
    by (intros Heq; apply Hfeat; rewrite Heq; apply elem_of_app; by left).
  rewrite (lookup_insert_ne _ _ (vs_opp c))
    by (intros Heq; apply Hfeat; rewrite Heq; apply elem_of_app; right;
        by apply list_elem_of_fmap_2).
  split; [|done]. rewrite Hbase. unfold base_feature. by rewrite Hnone.
Qed.

Lemma prediction_frame_default
    (team_baselines : gmap string (string → Q)) (games_recent : list Row)
    (model : list Q → Q) (team_common_scores : gmap string Q)
    (schedule : list ScheduleRow) (blend_common add_points : Q) (i : nat) :
  (i < 2 * length schedule)%nat →
  let df := default []
              (make_prediction_df team_baselines games_recent model
                 team_common_scores schedule blend_common add_points) in
  make_prediction_df team_baselines games_recent model team_common_scores
    schedule blend_common add_points = Some df ∧
  df !! i = Some (default ∅ (df !! i)).
Proof.
  intros Hi df.
  assert (Hschedule : schedule ≠ []) by (intros ->; cbn in Hi; lia).
  destruct (make_prediction_df_total team_baselines games_recent model
              team_common_scores schedule blend_common add_points Hschedule)
    as (df' & Hdf & Hlen).
  assert (Heq : df = df') by (subst df; by rewrite Hdf).
  rewrite Heq. split; [done|].
  destruct (lookup_lt_is_Some_2 df' i) as [row Hrow]; [lia|]. by rewrite Hrow.
Qed.

Lemma team_without_baseline_gets_frame_means_witness :
  sample_unknown_row !! "total_epa" =
    Some (VNum (col_means sample_games "total_epa" + HOME_FIELD_ADV)) ∧
  sample_unknown_row !! vs_opp "total_epa" = Some (VNum 0).
Proof.
  destruct (prediction_frame_default ∅ sample_games sample_model ∅ sample_schedule
              default_blend_common default_add_points 0) as [Hdf Hrow];
    [cbn; lia|].
  apply (team_without_baseline_gets_frame_means ∅ sample_games sample_model ∅
           sample_schedule default_blend_common default_add_points
           _ 0 sample_unknown_row "AA" true "total_epa" Hdf Hrow).
  - vm_compute; reflexivity.
  - vm_compute; reflexivity.
  - reflexivity.
  - in_list.
Defined.

(** X22: when both teams of a game have a baseline, the base features of
    the two sides are opposite numbers, apart from the home-field
    constant on the home side's [total_epa]. *)
Theorem sides_have_opposite_base_features
    (team_baselines : gmap string (string → Q)) (games_recent : list Row)
    (model : list Q → Q) (team_common_scores : gmap string Q)
    (schedule : list ScheduleRow) (blend_common add_points : Q)
    (df_pred : list (gmap string value)) (k : nat) (g : ScheduleRow) (c : string) :
  make_prediction_df team_baselines games_recent model team_common_scores
    schedule blend_common add_points = Some df_pred →
  schedule !! k = Some g →
  is_Some (team_baselines !! sched_home_team g) →
  is_Some (team_baselines !! sched_away_team g) →
  c ∈ base_feature_cols →
  ∃ vh va,
    df_pred !! (2 * k)%nat ≫= (.!! c) = Some (VNum vh) ∧
    df_pred !! (2 * k + 1)%nat ≫= (.!! c) = Some (VNum va) ∧
    vh + va == (if decide (c = "total_epa"%string) then HOME_FIELD_ADV else 0).
Proof.
  intros Hdf Hk [hl Hhl] [al Hal] Hc.
  destruct (sides_lookup schedule k g Hk) as [Hhome Haway].
  assert (Hschedule : schedule ≠ []) by (by intros ->).
  destruct (make_prediction_df_total team_baselines games_recent model
              team_common_scores schedule blend_common add_points Hschedule)
    as (df' & Hdf' & Hlen).
  rewrite Hdf in Hdf'. injection Hdf' as <-.
  pose proof (lookup_lt_Some _ _ _ Hk) as Hlt.
  destruct (lookup_lt_is_Some_2 df_pred (2 * k)) as [home_row Hhr]; [lia|].
  destruct (lookup_lt_is_Some_2 df_pred (2 * k + 1)) as [away_row Har]; [lia|].
  destruct (make_prediction_df_row_score _ _ _ _ _ _ _ _ _ _ Hdf Hhr)
    as (g1 & t1 & o1 & h1 & e1 & Hs1 & He1 & ->).
  destruct (make_prediction_df_row_score _ _ _ _ _ _ _ _ _ _ Hdf Har)
    as (g2 & t2 & o2 & h2 & e2 & Hs2 & He2 & ->).
  rewrite Hhome in Hs1. injection Hs1 as <- <- <- <-.
  rewrite Haway in Hs2. injection Hs2 as <- <- <- <-.
  destruct (make_entry_cells _ _ _ _ _ _ _ c He1 Hc) as [Hb1 _].
  destruct (make_entry_cells _ _ _ _ _ _ _ c He2 Hc) as [Hb2 _].
  destruct predicted_score_apart as [_ Hfeat].
  assert (Hne : "predicted_score"%string ≠ c).
  { intros Heq. apply Hfeat. rewrite Heq. apply elem_of_app. by left. }
  eexists _, _. rewrite Hhr, Har. cbn.
  rewrite !lookup_insert_ne by done.
  split; [exact Hb1|]. split; [exact Hb2|].
  unfold base_feature. rewrite Hhl, Hal.
  rewrite (bool_decide_false (false = true ∧ _)) by (by intros [? _]).
  destruct (decide (c = "total_epa"%string)) as [->|Hc'].
  - rewrite bool_decide_true by done. ring.
  - rewrite bool_decide_false by (by intros [_ ?]). ring.
Qed.

Lemma sides_have_opposite_base_features_witness :
  ∃ vh va,
    sample_df_pred !! (2 * 0)%nat ≫= (.!! "yards"%string) = Some (VNum vh) ∧
    sample_df_pred !! (2 * 0 + 1)%nat ≫= (.!! "yards"%string) = Some (VNum va) ∧
    vh + va == (if decide ("yards"%string = "total_epa"%string)
                then HOME_FIELD_ADV else 0).
Proof.
  destruct sample_df_pred_rows as (Hdf & _ & _).
  apply (sides_have_opposite_base_features sample_baselines [] sample_model ∅
           sample_schedule default_blend_common default_add_points
           sample_df_pred 0 (mkScheduleRow "2025_01_BB_AA" "AA" "BB") "yards" Hdf).
  - reflexivity.
  - by eexists.
  - by eexists.
  - in_list.
Defined.

(** ** From the prediction frame to the game-level predictions *)

Lemma to_pred_row_of_row
    (team_baselines : gmap string (string → Q)) (games_recent : list Row)
    (game_id team opp : string) (is_home : bool)
    (entry : gmap string value) (p : Q) :
  make_entry team_baselines games_recent game_id team opp is_home = Some entry →
  to_pred_row (<["predicted_score" := VNum p]> entry) =
    Some (mkPredRow game_id team is_home p).
Proof.
  intros Hentry.
  destruct (prediction_row_meta _ _ _ _ _ _ _ (VNum p) Hentry) as (Hg & Ht & _ & Hh).
  unfold to_pred_row, str_at, num_at.
  by rewrite Hg, Ht, Hh, lookup_insert_eq.
Qed.

Lemma length_sides (schedule : list ScheduleRow) :
  length (schedule ≫= sides) = (2 * length schedule)%nat.
Proof. induction schedule as [|g l IH]; [done|]. cbn. rewrite IH. lia. Qed.

(** The merge of section 10 on the rows of the two sides. *)
Lemma final_preds_cons_pair (h a : PredRow) (preds : list PredRow) :
  pred_is_home h = true → pred_is_home a = false →
  pred_game_id a = pred_game_id h →
  Forall (λ p, pred_game_id p ≠ pred_game_id h) preds →
  ∃ winner,
    final_preds (h :: a :: preds) =
      mkGamePrediction (pred_game_id h) (pred_team h) (predicted_score h)
        (pred_team a) (predicted_score a) winner
      :: final_preds preds.
Proof.
  intros Hh Ha Hid Hrest. unfold final_preds. eexists.
  rewrite (filter_cons (λ p, pred_is_home p = true) h).
  rewrite (decide_True (P := pred_is_home h = true)) by done.
  rewrite (filter_cons (λ p, pred_is_home p = true) a).
  rewrite (decide_False (P := pred_is_home a = true)) by (by rewrite Ha).
  rewrite (filter_cons (λ p, pred_is_home p ≠ true) h).
  rewrite (decide_False (P := pred_is_home h ≠ true)) by (by intros []).
  rewrite (filter_cons (λ p, pred_is_home p ≠ true) a).
  rewrite (decide_True (P := pred_is_home a ≠ true)) by (by rewrite Ha).
  rewrite bind_cons.
  rewrite (filter_cons (λ a0, pred_game_id a0 = pred_game_id h) a).
  rewrite (decide_True (P := pred_game_id a = pred_game_id h)) by done.
  rewrite (filter_none (λ a0, pred_game_id a0 = pred_game_id h)).
  2:{ apply Forall_forall. intros p Hp.
      apply list_elem_of_filter in Hp as [_ Hp].
      rewrite Forall_forall in Hrest. by apply Hrest. }
  rewrite fmap_cons, fmap_nil. cbn [app]. f_equal.
  apply Forall_bind_ext, Forall_forall. intros h' Hh'.
  apply list_elem_of_filter in Hh' as [_ Hh'].
  rewrite filter_cons, decide_False; [done|].
  rewrite Hid. intros Heq. rewrite Forall_forall in Hrest.
  by apply (Hrest h' Hh').
Qed.

Lemma final_preds_of_schedule (schedule : list ScheduleRow) (preds : list PredRow) :
  NoDup (sched_game_id <$> schedule) →
  Forall2 (λ p '(game_id, team, _, is_home),
             pred_game_id p = game_id ∧ pred_team p = team ∧
             pred_is_home p = is_home)
          preds (schedule ≫= sides) →
  (λ g, (gp_game_id g, gp_home_team g, gp_away_team g)) <$> final_preds preds =
  (λ s, (sched_game_id s, sched_home_team s, sched_away_team s)) <$> schedule.
Proof.
  revert preds. induction schedule as [|s schedule IH]; intros preds Hnd Hall.
  - apply Forall2_nil_inv_r in Hall as ->. done.
  - rewrite fmap_cons in Hnd. apply NoDup_cons in Hnd as [Hs Hnd].
    cbn in Hall.
    apply Forall2_cons_inv_r in Hall as (h & preds1 & (Hg & Ht & Hh) & Hall & ->).
    apply Forall2_cons_inv_r in Hall as (a & preds2 & (Hg' & Ht' & Hh') & Hall & ->).
    assert (Hrest : Forall (λ p, pred_game_id p ≠ pred_game_id h) preds2).
    { apply Forall_forall. intros p Hp Heq.
      apply list_elem_of_lookup in Hp as [i Hi].
      destruct (Forall2_lookup_l _ _ _ _ _ Hall Hi)
        as ([[[g' t'] o'] h'] & Hside & Hg'' & _).
      apply list_elem_of_lookup_2 in Hside.
      apply list_elem_of_bind in Hside as (s' & Hside & Hs').
      apply Hs. rewrite <- Hg, <- Heq, Hg''.
      apply list_elem_of_fmap. exists s'. split; [|done].
      unfold sides in Hside.
      apply elem_of_cons in Hside as [Hside|Hside];
        [|apply list_elem_of_singleton in Hside]; by injection Hside. }
    destruct (final_preds_cons_pair h a preds2) as [winner ->];
      [done | done | congruence | done |].
    rewrite !fmap_cons, (IH preds2 Hnd Hall). cbn. by rewrite Hg, Ht, Ht'.
Qed.

(** X23: when the game ids of the schedule are distinct, the pivot of
    section 10 gives one prediction per scheduled game, in schedule
    order, with the game's home and away teams. *)
Theorem one_prediction_per_scheduled_game
    (team_baselines : gmap string (string → Q)) (games_recent : list Row)
    (model : list Q → Q) (team_common_scores : gmap string Q)
    (schedule : list ScheduleRow) (blend_common add_points : Q)
    (df_pred : list (gmap string value)) :
  NoDup (sched_game_id <$> schedule) →
  make_prediction_df team_baselines games_recent model team_common_scores
    schedule blend_common add_points = Some df_pred →
  ∃ pred_input,
    mapM to_pred_row df_pred = Some pred_input ∧
    (λ g, (gp_game_id g, gp_home_team g, gp_away_team g)) <$> final_preds pred_input =
    (λ s, (sched_game_id s, sched_home_team s, sched_away_team s)) <$> schedule.
Proof.
  intros Hnd Hdf.
  assert (Hrows : ∀ i row, df_pred !! i = Some row →
            ∃ game_id team opp is_home p,
              (schedule ≫= sides) !! i = Some (game_id, team, opp, is_home) ∧
              to_pred_row row = Some (mkPredRow game_id team is_home p)).
  { intros i row Hrow.
    destruct (make_prediction_df_row_score _ _ _ _ _ _ _ _ _ _ Hdf Hrow)
      as (g & t & o & h & e & Hside & He & ->).
    eexists g, t, o, h, _. split; [done|]. by eapply to_pred_row_of_row. }
  destruct (mapM to_pred_row df_pred) as [pred_input|] eqn:Hmap.
  - exists pred_input. split; [done|].
    apply mapM_Some in Hmap.
    apply final_preds_of_schedule; [done|].
    assert (Hschedule : schedule ≠ []) by (intros ->; discriminate Hdf).
    destruct (make_prediction_df_total team_baselines games_recent model
                team_common_scores schedule blend_common add_points Hschedule)
      as (df' & Hdf' & Hlen).
    rewrite Hdf in Hdf'. injection Hdf' as <-.
    apply Forall2_same_length_lookup_2.
    + rewrite <- (Forall2_length _ _ _ Hmap), length_sides. done.
    + intros i p [[[g t] o] h] Hp Hside.
      destruct (Forall2_lookup_r _ _ _ _ _ Hmap Hp) as (row & Hrow & Hto).
      destruct (Hrows i row Hrow) as (g' & t' & o' & h' & q & Hside' & Hto').
      rewrite Hside in Hside'. injection Hside' as <- <- <- <-.
      rewrite Hto in Hto'. by injection Hto' as ->.
  - exfalso. apply mapM_None in Hmap.
    apply Exists_exists in Hmap as (row & Hin & Hnone).
    apply list_elem_of_lookup in Hin as [i Hi].
    destruct (Hrows i row Hi) as (g & t & o & h & p & _ & Hto). congruence.
Qed.

Lemma one_prediction_per_scheduled_game_witness :
  ∃ pred_input,
    mapM to_pred_row sample_df_pred = Some pred_input ∧
    (λ g, (gp_game_id g, gp_home_team g, gp_away_team g)) <$> final_preds pred_input =
    (λ s, (sched_game_id s, sched_home_team s, sched_away_team s)) <$> sample_schedule.
Proof.
  destruct sample_df_pred_rows as (Hdf & _ & _).
  apply (one_prediction_per_scheduled_game sample_baselines [] sample_model ∅
           sample_schedule default_blend_common default_add_points
           sample_df_pred); [|exact Hdf].
  apply (bool_decide_unpack _). vm_compute. exact I.
Defined.

(** ** Merging the final scores *)

(** X24: every row of the merged history joins a game row with the score
    line of its own side: the line's team is the team on offense, its
    opponent is the other team of the scheduled game and its score is
    that side's final score. *)
Theorem merge_scores_takes_own_side
    (hist_games : list Game.t) (scores : list Schedule.t)
    (g : Game.t) (line : ScoreLine) :
  (g, line) ∈ merge_scores hist_games (scores_long scores) →
  g ∈ hist_games ∧
  sl_team line = Game.posteam g ∧
  ∃ s, s ∈ scores ∧ Schedule.game_id s = Game.game_id g ∧
       (Schedule.home_team s = Game.posteam g ∧
        sl_opp line = Schedule.away_team s ∧
        sl_score line = Schedule.home_score s
        ∨
        Schedule.away_team s = Game.posteam g ∧
        sl_opp line = Schedule.home_team s ∧
        sl_score line = Schedule.away_score s).
Proof.
  unfold merge_scores, scores_long. intros Hin.
  apply list_elem_of_bind in Hin as (g' & Hin & Hg').
  apply list_elem_of_fmap in Hin as (line' & [= <- <-] & Hline).
  apply list_elem_of_filter in Hline as [[Hid Hteam] Hline].
  split; [done|]. split; [done|].
  apply elem_of_app in Hline as [Hline|Hline];
    apply list_elem_of_fmap in Hline as (s & -> & Hs); exists s;
    (split; [done|]); (split; [done|]); [left | right]; by cbn in *.
Qed.

Lemma merge_scores_takes_own_side_witness :
  sample_game_row ∈ build_game_level_df sample_pbp ∧
  sl_team (mkScoreLine "2023_01_AA_BB" "AA" "BB" (Some 24)) =
    Game.posteam sample_game_row ∧
  ∃ s, s ∈ sample_scores ∧ Schedule.game_id s = Game.game_id sample_game_row ∧
       (Schedule.home_team s = Game.posteam sample_game_row ∧
        sl_opp (mkScoreLine "2023_01_AA_BB" "AA" "BB" (Some 24)) = Schedule.away_team s ∧
        sl_score (mkScoreLine "2023_01_AA_BB" "AA" "BB" (Some 24)) = Schedule.home_score s
        ∨
        Schedule.away_team s = Game.posteam sample_game_row ∧
        sl_opp (mkScoreLine "2023_01_AA_BB" "AA" "BB" (Some 24)) = Schedule.home_team s ∧
        sl_score (mkScoreLine "2023_01_AA_BB" "AA" "BB" (Some 24)) = Schedule.away_score s).
Proof.
  apply (merge_scores_takes_own_side (build_game_level_df sample_pbp) sample_scores).
  at_index 0%nat.
Defined.

Lemma merge_scores_fst (hist_games : list Game.t) (lines : list ScoreLine) :
  (merge_scores hist_games lines).*1 =
  hist_games ≫= λ g,
    replicate
      (length (filter (λ s, sl_game_id s = Game.game_id g ∧ sl_team s = Game.posteam g)
                 lines)) g.
Proof.
  unfold merge_scores. rewrite fmap_bind_comm. apply list_bind_ext; [|done].
  intros g. induction (filter _ lines) as [|s l IH]; [done|].
  by rewrite fmap_cons, fmap_cons, IH.
Qed.

(** The number of score lines of a game and a team, in a schedule with
    distinct game ids and two different teams per game. *)
Lemma score_lines_of_side (scores : list Schedule.t) (gid pos : string) :
  NoDup (Schedule.game_id <$> scores) →
  Forall (λ s, Schedule.home_team s ≠ Schedule.away_team s) scores →
  length (filter (λ l, sl_game_id l = gid ∧ sl_team l = pos) (scores_long scores)) =
  if decide (Exists (λ s, Schedule.game_id s = gid ∧
                          (Schedule.home_team s = pos ∨ Schedule.away_team s = pos))
               scores)
  then 1%nat else 0%nat.
Proof.
  intros Hnd Hteams. unfold scores_long.
  rewrite filter_app, length_app.
  assert (Hlen : ∀ (f : Schedule.t → ScoreLine) (P : ScoreLine → Prop)
                   `{!∀ l, Decision (P l)} (ss : list Schedule.t),
            length (filter P (map f ss)) = length (filter (λ s, P (f s)) ss)).
  { intros f P ? ss. induction ss as [|s ss IH]; [done|].
    cbn [map]. rewrite !filter_cons. destruct (decide (P (f s))); cbn; by rewrite IH. }
  rewrite !Hlen. cbn [sl_game_id sl_team]. clear Hlen.
  induction scores as [|s scores IH].
  - cbn. rewrite decide_False; [done|]. by intros H%Exists_nil.
  - rewrite fmap_cons in Hnd. apply NoDup_cons in Hnd as [Hs Hnd].
    apply Forall_cons in Hteams as [Hs_teams Hteams].
    specialize (IH Hnd Hteams). rewrite !filter_cons.
    destruct (decide (Schedule.game_id s = gid)) as [Hid|Hid].
    + assert (Hnone : ¬ Exists (λ s0, Schedule.game_id s0 = gid ∧
                          (Schedule.home_team s0 = pos ∨ Schedule.away_team s0 = pos))
                        scores).
      { intros Hex. apply Exists_exists in Hex as (s' & Hs' & Hid' & _).
        apply Hs. rewrite Hid, <- Hid'. by apply list_elem_of_fmap_2. }
      rewrite decide_False in IH by done.
      destruct (decide (Schedule.home_team s = pos)) as [Hh|Hh];
        destruct (decide (Schedule.away_team s = pos)) as [Ha|Ha].
      * congruence.
      * rewrite (decide_True (P := _ ∧ Schedule.home_team s = pos)) by done.
        rewrite (decide_False (P := _ ∧ Schedule.away_team s = pos)) by tauto.
        rewrite decide_True by (apply Exists_cons_hd; tauto). cbn [length]. lia.
      * rewrite (decide_False (P := _ ∧ Schedule.home_team s = pos)) by tauto.
        rewrite (decide_True (P := _ ∧ Schedule.away_team s = pos)) by done.
        rewrite decide_True by (apply Exists_cons_hd; tauto). cbn [length]. lia.
      * rewrite (decide_False (P := _ ∧ Schedule.home_team s = pos)) by tauto.
        rewrite (decide_False (P := _ ∧ Schedule.away_team s = pos)) by tauto.
        rewrite decide_False; [lia|].
        intros Hex. apply Exists_cons in Hex as [[_ [?|?]]|Hex]; done.
    + rewrite (decide_False (P := _ ∧ Schedule.home_team s = pos)) by tauto.
      rewrite (decide_False (P := _ ∧ Schedule.away_team s = pos)) by tauto.
      rewrite IH. apply decide_ext. rewrite Exists_cons. tauto.
Qed.

(** X25: with a schedule of distinct game ids and two different teams per
    game, the merge neither repeats nor reorders game rows: it keeps,
    once each, exactly the rows whose game is scheduled with the team on
    offense as one of its two teams. *)
Theorem merge_scores_keeps_scheduled_rows_once
    (hist_games : list Game.t) (scores : list Schedule.t) :
  NoDup (Schedule.game_id <$> scores) →
  Forall (λ s, Schedule.home_team s ≠ Schedule.away_team s) scores →
  (merge_scores hist_games (scores_long scores)).*1 =
  filter (λ g, Exists (λ s, Schedule.game_id s = Game.game_id g ∧
                            (Schedule.home_team s = Game.posteam g ∨
                             Schedule.away_team s = Game.posteam g)) scores)
         hist_games.
Proof.
  intros Hnd Hteams. rewrite merge_scores_fst.
  induction hist_games as [|g hist_games IH]; [done|].
  rewrite bind_cons, IH, filter_cons.
  rewrite (score_lines_of_side scores (Game.game_id g) (Game.posteam g) Hnd Hteams).
  by destruct (decide _).
Qed.

Lemma merge_scores_keeps_scheduled_rows_once_witness :
  (merge_scores (build_game_level_df sample_pbp) (scores_long sample_scores)).*1 =
  filter (λ g, Exists (λ s, Schedule.game_id s = Game.game_id g ∧
                            (Schedule.home_team s = Game.posteam g ∨
                             Schedule.away_team s = Game.posteam g)) sample_scores)
         (build_game_level_df sample_pbp).
Proof.
  apply (merge_scores_keeps_scheduled_rows_once (build_game_level_df sample_pbp)
           sample_scores).
  - apply (bool_decide_unpack _). vm_compute. exact I.
  - repeat constructor. discriminate.
Defined.

(** ** The final table *)

Lemma filter_key_NoDup {B} (key : B → string) (k : string) (right : list B) :
  NoDup (key <$> right) →
  filter (λ y, key y = k) right = option_list (head (filter (λ y, key y = k) right)).
Proof.
  induction right as [|y right IH]; intros Hnd; [done|].
  rewrite fmap_cons in Hnd. apply NoDup_cons in Hnd as [Hy Hnd].
  rewrite filter_cons. destruct (decide (key y = k)) as [Hk|Hk]; [|by apply IH].
  rewrite filter_none; [done|].
  apply Forall_forall. intros y' Hy' Hk'. apply Hy.
  rewrite Hk, <- Hk'. by apply list_elem_of_fmap_2.
Qed.

(** With distinct keys on the right, a left merge keeps every left row
    once, in order. *)
Lemma left_merge_NoDup {A B C} (key_l : A → string) (key_r : B → string)
    (pair : A → option B → C) (left : list A) (right : list B) :
  NoDup (key_r <$> right) →
  left_merge key_l key_r pair left right =
  (λ x, pair x (head (filter (λ y, key_r y = key_l x) right))) <$> left.
Proof.
  intros Hnd. unfold left_merge.
  induction left as [|x left IH]; [done|].
  rewrite bind_cons, fmap_cons, IH. clear IH.
  rewrite (filter_key_NoDup key_r (key_l x) right Hnd).
  by destruct (head (filter (λ y, key_r y = key_l x) right)).
Qed.

(** X26: with distinct game ids in the schedule, the final table holds
    every game prediction once, in order, beside the metadata and the
    final scores of the schedule row of its game (all missing when the
    schedule has no such row); the prediction counts as correct when the
    projected winner is the home team in case of a home score strictly
    above the away score, and the away team otherwise. *)
Theorem final_table_of_distinct_games
    (preds : list GamePrediction) (schedule_2025 : list Schedule.t) :
  NoDup (Schedule.game_id <$> schedule_2025) →
  final_table preds schedule_2025 =
  (λ g,
     let s := head (filter (λ s, Schedule.game_id s = gp_game_id g) schedule_2025) in
     mkFinalRow g (Schedule.meta <$> s)
       (s ≫= Schedule.home_score) (s ≫= Schedule.away_score)
       (bool_decide
          (projected_winner g =
           if score_gt (s ≫= Schedule.home_score) (s ≫= Schedule.away_score)
           then gp_home_team g else gp_away_team g)))
  <$> preds.
Proof.
  intros Hnd. unfold final_table.
  rewrite !(left_merge_NoDup _ _ _ _ _ Hnd).
  match goal with |- map ?F ?l = _ => change (map F l) with (F <$> l) end.
  rewrite <- !list_fmap_compose.
  apply list_fmap_ext. by intros i g _.
Qed.

Lemma final_table_of_distinct_games_witness :
  final_table (final_preds sample_tied_preds) sample_schedule_2025 =
  (λ g,
     let s := head (filter (λ s, Schedule.game_id s = gp_game_id g)
                      sample_schedule_2025) in
     mkFinalRow g (Schedule.meta <$> s)
       (s ≫= Schedule.home_score) (s ≫= Schedule.away_score)
       (bool_decide
          (projected_winner g =
           if score_gt (s ≫= Schedule.home_score) (s ≫= Schedule.away_score)
           then gp_home_team g else gp_away_team g)))
  <$> final_preds sample_tied_preds.
Proof.
  apply (final_table_of_distinct_games (final_preds sample_tied_preds)
           sample_schedule_2025).
  apply (bool_decide_unpack _). vm_compute. exact I.
Defined.

Lemma final_table_row (preds : list GamePrediction)
    (schedule_2025 : list Schedule.t) (row : FinalRow) :
  row ∈ final_table preds schedule_2025 →
  fr_pred row ∈ preds ∧
  predicted_winner_correct row =
    bool_decide
      (projected_winner (fr_pred row) =
       if score_gt (fr_home_score row) (fr_away_score row)
       then gp_home_team (fr_pred row) else gp_away_team (fr_pred row)).
Proof.
  unfold final_table. intros Hrow.
  apply list_elem_of_fmap in Hrow as ([[[g m] hs] as_] & -> & Hin).
  cbn. split; [|done].
  unfold left_merge in Hin.
  apply list_elem_of_bind in Hin as ([g' m'] & Hin & Hgm).
  assert (g' = g) as ->.
  { destruct (filter _ schedule_2025) as [|y ys].
    - apply list_elem_of_singleton in Hin. by injection Hin.
    - apply list_elem_of_fmap in Hin as (y' & Heq & _). by injection Heq. }
  apply list_elem_of_bind in Hgm as (g'' & Hgm & Hg'').
  assert (g'' = g) as ->; [|done].
  destruct (filter _ schedule_2025) as [|y ys].
  - apply list_elem_of_singleton in Hgm. by injection Hgm.
  - apply list_elem_of_fmap in Hgm as (y' & Heq & _). by injection Heq.
Qed.

(** X27: for a game without final scores the prediction counts as
    correct exactly when the home team's predicted score is not strictly
    above the away team's, that is when the away team is the projected
    winner. *)
Theorem ungraded_game_counts_away_projection_as_correct
    (pred_input : list PredRow) (schedule_2025 : list Schedule.t) (row : FinalRow) :
  row ∈ final_table (final_preds pred_input) schedule_2025 →
  fr_home_score row = None ∨ fr_away_score row = None →
  gp_home_team (fr_pred row) ≠ gp_away_team (fr_pred row) →
  (predicted_winner_correct row = true ↔
   projected_winner (fr_pred row) = gp_away_team (fr_pred row)) ∧
  (predicted_winner_correct row = true ↔
   ¬ away_pred_score (fr_pred row) < home_pred_score (fr_pred row)).
Proof.
  intros Hrow Hmissing Hteams.
  apply final_table_row in Hrow as [Hpred ->].
  assert (Hgt : score_gt (fr_home_score row) (fr_away_score row) = false).
  { destruct Hmissing as [-> | ->]; [done|]. by destruct (fr_home_score row). }
  rewrite Hgt, bool_decide_eq_true. split; [done|].
  apply final_preds_row in Hpred as (h & a & _ & _ & _ & _ & _ & Hg).
  rewrite Hg in Hteams |- *. cbn in *.
  destruct (Qlt_bool (predicted_score a) (predicted_score h)) eqn:Hlt.
  - apply Qlt_bool_iff in Hlt. split; [done | tauto].
  - split; [|done]. intros _ H. apply Qlt_bool_iff in H. congruence.
Qed.

Lemma ungraded_game_counts_away_projection_as_correct_witness :
  (predicted_winner_correct sample_final_row = true ↔
   projected_winner (fr_pred sample_final_row) = gp_away_team (fr_pred sample_final_row)) ∧
  (predicted_winner_correct sample_final_row = true ↔
   ¬ away_pred_score (fr_pred sample_final_row)
     < home_pred_score (fr_pred sample_final_row)).
Proof.
  apply (ungraded_game_counts_away_projection_as_correct sample_tied_preds
           sample_schedule_2025 sample_final_row).
  - at_index 0%nat.
  - by left.
  - discriminate.
Defined.
